(** * hookover/validate: rule model, string-rule parser and data-source
      constructors, embedded in Rocq.

    Go strings are byte sequences; they are modelled by [string], whose
    characters are the bytes.  Pointers to rules are locations in a store,
    a panic is the result [None]. *)

From Stdlib Require Import Ascii NArith ZArith.
From stdpp Require Import gmap strings list fin_maps.

Local Open Scope N_scope.

(** ** The functions of Go's package [strings] used by the repository *)

Module GoStrings.

Definition code (c : ascii) : N := N_of_ascii c.

(** [asciiSpace]: tab, line feed, vertical tab, form feed, carriage
    return and space. *)
Definition asciiSpace (c : ascii) : bool :=
  ((9 <=? code c) && (code c <=? 13)) || (code c =? 32).

(** The white-space runes of [unicode.IsSpace] that take two bytes in
    UTF-8: U+0085 and U+00A0. *)
Definition space2 (c1 c2 : ascii) : bool :=
  (code c1 =? 194) && ((code c2 =? 133) || (code c2 =? 160)).

(** Those that take three bytes: U+1680, U+2000 to U+200A, U+2028, U+2029,
    U+202F, U+205F and U+3000. *)
Definition space3 (c1 c2 c3 : ascii) : bool :=
  ((code c1 =? 225) && (code c2 =? 154) && (code c3 =? 128))
  || ((code c1 =? 226) && (code c2 =? 128)
      && (((128 <=? code c3) && (code c3 <=? 138))
          || (code c3 =? 168) || (code c3 =? 169) || (code c3 =? 175)))
  || ((code c1 =? 226) && (code c2 =? 129) && (code c3 =? 159))
  || ((code c1 =? 227) && (code c2 =? 128) && (code c3 =? 128)).

(** Drops the white-space runes at the front of [s].  With [back] the
    string is read from its last byte, so the bytes of a rune come in
    reverse. *)
Fixpoint dropSpaces (back : bool) (s : string) : string :=
  match s with
  | String c1 s1 =>
      if asciiSpace c1 then dropSpaces back s1 else
      match s1 with
      | String c2 s2 =>
          if (if back then space2 c2 c1 else space2 c1 c2)
          then dropSpaces back s2 else
          match s2 with
          | String c3 s3 =>
              if (if back then space3 c3 c2 c1 else space3 c1 c2 c3)
              then dropSpaces back s3 else s
          | EmptyString => s
          end
      | EmptyString => s
      end
  | EmptyString => s
  end.

(** [strings.TrimSpace]: leading white space goes first, then trailing. *)
Definition TrimSpace (s : string) : string :=
  String.rev (dropSpaces true (String.rev (dropSpaces false s))).

Fixpoint ContainsByte (s : string) (c : ascii) : bool :=
  match s with
  | EmptyString => false
  | String d s' => if decide (d = c) then true else ContainsByte s' c
  end.

(** [strings.ContainsRune] for a rune below 0x80. *)
Definition ContainsRune (s : string) (r : ascii) : bool := ContainsByte s r.

Fixpoint trimLeftBytes (cutset s : string) : string :=
  match s with
  | String c s' => if ContainsByte cutset c then trimLeftBytes cutset s' else s
  | EmptyString => s
  end.

(** [strings.Trim] for a cutset of bytes below 0x80, as every cutset the
    repository passes is. *)
Definition Trim (s cutset : string) : string :=
  String.rev (trimLeftBytes cutset (String.rev (trimLeftBytes cutset s))).

Fixpoint hasPrefix (p s : string) : bool :=
  match p, s with
  | EmptyString, _ => true
  | String a p', String b s' => if decide (a = b) then hasPrefix p' s' else false
  | String _ _, EmptyString => false
  end.

(** [strings.Contains]. *)
Fixpoint Contains (s substr : string) : bool :=
  hasPrefix substr s
  || match s with
     | String _ s' => Contains s' substr
     | EmptyString => false
     end.

(** One pass over [s]: [cur] holds the bytes of the current piece in
    reverse, [skip] the bytes of a separator still to be passed. *)
Fixpoint splitGo (sep : string) (skip : nat) (cur : string) (s : string)
  : list string :=
  match s with
  | EmptyString => [String.rev cur]
  | String c s' =>
      match skip with
      | S k => splitGo sep k cur s'
      | O =>
          if hasPrefix sep s
          then String.rev cur :: splitGo sep (String.length sep - 1) EmptyString s'
          else splitGo sep O (String c cur) s'
      end
  end.

Fixpoint explode (s : string) : list string :=
  match s with
  | EmptyString => []
  | String c s' => String c EmptyString :: explode s'
  end.

(** [strings.Split]: the pieces of [s] between the occurrences of [sep];
    an empty [sep] splits after every character. *)
Definition Split (s sep : string) : list string :=
  match sep with
  | EmptyString => explode s
  | String _ _ => splitGo sep O EmptyString s
  end.

(** [strings.Join]. *)
Fixpoint Join (elems : list string) (sep : string) : string :=
  match elems with
  | [] => ""
  | [a] => a
  | a :: rest => a +:+ sep +:+ Join rest sep
  end.

End GoStrings.

Import GoStrings.

(** ** Values, errors and the helpers that live outside the rule file *)

(** The values of Go's [interface{}] that the rule code builds or stores:
    [nil], booleans, integers, strings and string slices. *)
Inductive any :=
  | ANil
  | ABool (b : bool)
  | AInt (n : Z)
  | AString (s : string)
  | AStrings (l : list string).

Inductive error :=
  | ErrInvalidData
  | ErrEmptyData
  | ErrOther (msg : string).

(** Modelled from the spec: [stringSplit] is called by the rule file but
    defined elsewhere.  The rule file uses it to cut a field list at [","],
    a rule at ["|"] and a token at [":"], into every piece; the spec has
    the pieces trimmed of white space and the empty ones skipped. *)
Definition stringSplit (str sep : string) : list string :=
  let str := TrimSpace str in
  if decide (str = "") then []
  else filter (λ val, val ≠ "") (TrimSpace <$> Split str sep).

(** Modelled from the spec: [parseArgString] is defined elsewhere; the spec
    has it split the argument text at [","] into a raw argument list. *)
Definition parseArgString (argStr : string) : list string :=
  stringSplit argStr ",".

(** What the rule file calls and the repository defines elsewhere: the
    translator and its [Message], the alias table behind [ValidatorName],
    the conversion [strings2Args], the reflection helpers of
    [SetCheckFunc], and [FilterRule] with the filter rules it keeps.  The
    theorems hold for every choice of them. *)
Class Collaborators := {
  Translator : Type;
  Message : Translator → string → string → list any → string;
  ValidatorName : string → string;
  strings2Args : list string → list any;
  CheckFunc : Type;
  FuncValue : Type;
  funcMeta : Type;
  checkValidatorFunc : string → CheckFunc → option FuncValue;
  newFuncMeta : string → bool → FuncValue → funcMeta;
  FilterRules : Type;
  FilterRule : string → string → FilterRules → option FilterRules;
}.

(** ** The rule model *)

Section RuleModel.
Context `{Collaborators}.

(** A [*Rule] is a location of the rule store. *)
Definition loc := nat.

(** [MS], a [map[string]string]; [None] is the nil map. *)
Definition MS := option (gmap string string).

(** The engine, with the attributes the rule file reads or writes.
    [defValues] and [filterRules] belong to [SetDefValue] and
    [FilterRule]. *)
Record Validation := mkValidation {
  rules : list loc;
  SkipOnEmpty : bool;
  trans : Translator;
  defValues : gmap string any;
  filterRules : FilterRules;
}.

Record Rule := mkRule {
  scene : string;
  fields : list string;
  optional : bool;
  skipEmpty : bool;
  defValue : any;
  message : string;
  messages : MS;
  validator : string;
  arguments : list any;
  beforeFunc : option (string → Validation → bool);
  filterFunc : option (any → any * option error);
  checkFuncMeta : option funcMeta;
  emptyChecker : option (any → bool);
}.

(** The attributes of a rule, to say which ones an operation leaves
    alone. *)
Inductive attr :=
  | a_scene | a_fields | a_optional | a_skipEmpty | a_defValue | a_message
  | a_messages | a_validator | a_arguments | a_beforeFunc | a_filterFunc
  | a_checkFuncMeta | a_emptyChecker.

Definition attr_type (a : attr) : Type :=
  match a with
  | a_scene => string
  | a_fields => list string
  | a_optional => bool
  | a_skipEmpty => bool
  | a_defValue => any
  | a_message => string
  | a_messages => MS
  | a_validator => string
  | a_arguments => list any
  | a_beforeFunc => option (string → Validation → bool)
  | a_filterFunc => option (any → any * option error)
  | a_checkFuncMeta => option funcMeta
  | a_emptyChecker => option (any → bool)
  end.

Definition get (a : attr) (r : Rule) : attr_type a :=
  match a with
  | a_scene => scene r
  | a_fields => fields r
  | a_optional => optional r
  | a_skipEmpty => skipEmpty r
  | a_defValue => defValue r
  | a_message => message r
  | a_messages => messages r
  | a_validator => validator r
  | a_arguments => arguments r
  | a_beforeFunc => beforeFunc r
  | a_filterFunc => filterFunc r
  | a_checkFuncMeta => checkFuncMeta r
  | a_emptyChecker => emptyChecker r
  end.

(** Assignments to one attribute, [r.attribute = x]. *)
Definition assign_scene (x : string) (r : Rule) : Rule :=
  mkRule x (fields r) (optional r) (skipEmpty r) (defValue r) (message r)
    (messages r) (validator r) (arguments r) (beforeFunc r) (filterFunc r)
    (checkFuncMeta r) (emptyChecker r).
Definition assign_optional (x : bool) (r : Rule) : Rule :=
  mkRule (scene r) (fields r) x (skipEmpty r) (defValue r) (message r)
    (messages r) (validator r) (arguments r) (beforeFunc r) (filterFunc r)
    (checkFuncMeta r) (emptyChecker r).
Definition assign_skipEmpty (x : bool) (r : Rule) : Rule :=
  mkRule (scene r) (fields r) (optional r) x (defValue r) (message r)
    (messages r) (validator r) (arguments r) (beforeFunc r) (filterFunc r)
    (checkFuncMeta r) (emptyChecker r).
Definition assign_message (x : string) (r : Rule) : Rule :=
  mkRule (scene r) (fields r) (optional r) (skipEmpty r) (defValue r) x
    (messages r) (validator r) (arguments r) (beforeFunc r) (filterFunc r)
    (checkFuncMeta r) (emptyChecker r).
Definition assign_messages (x : MS) (r : Rule) : Rule :=
  mkRule (scene r) (fields r) (optional r) (skipEmpty r) (defValue r)
    (message r) x (validator r) (arguments r) (beforeFunc r) (filterFunc r)
    (checkFuncMeta r) (emptyChecker r).
Definition assign_beforeFunc (x : option (string → Validation → bool))
    (r : Rule) : Rule :=
  mkRule (scene r) (fields r) (optional r) (skipEmpty r) (defValue r)
    (message r) (messages r) (validator r) (arguments r) x (filterFunc r)
    (checkFuncMeta r) (emptyChecker r).
Definition assign_filterFunc (x : option (any → any * option error))
    (r : Rule) : Rule :=
  mkRule (scene r) (fields r) (optional r) (skipEmpty r) (defValue r)
    (message r) (messages r) (validator r) (arguments r) (beforeFunc r) x
    (checkFuncMeta r) (emptyChecker r).
Definition assign_checkFuncMeta (x : option funcMeta) (r : Rule) : Rule :=
  mkRule (scene r) (fields r) (optional r) (skipEmpty r) (defValue r)
    (message r) (messages r) (validator r) (arguments r) (beforeFunc r)
    (filterFunc r) x (emptyChecker r).

(** The rule store.  [alloc] is [&Rule{...}]; [write] is an assignment
    through a pointer, which panics on a pointer to no rule. *)
Definition alloc (x : Rule) (h : list Rule) : loc * list Rule :=
  (length h, h ++ [x]).

Definition write (r : loc) (f : Rule → Rule) (h : list Rule)
  : option (list Rule) :=
  match h !! r with
  | Some x => Some (<[r := f x]> h)
  | None => None
  end.

(** [NewRule]: the rule value; its caller allocates it. *)
Definition NewRule (fields validator : string) (args : list any) : Rule :=
  {| scene := ""; fields := stringSplit fields ","; optional := false;
     skipEmpty := false; defValue := ANil; message := ""; messages := None;
     validator := validator; arguments := args; beforeFunc := None;
     filterFunc := None; checkFuncMeta := None; emptyChecker := None |}.

(** The setters.  The result is [None] on a panic; otherwise the value the
    method returns ([None] for a method with no result) and the store. *)
Definition SetScene (scene : string) (r : loc) (h : list Rule)
  : option (option loc * list Rule) :=
  h' ← write r (assign_scene scene) h; Some (Some r, h').

Definition SetOptional (optional : bool) (r : loc) (h : list Rule)
  : option (option loc * list Rule) :=
  h' ← write r (assign_optional optional) h; Some (None, h').

Definition SetSkipEmpty (skipEmpty : bool) (r : loc) (h : list Rule)
  : option (option loc * list Rule) :=
  h' ← write r (assign_skipEmpty skipEmpty) h; Some (None, h').

Definition SetCheckFunc (checkFunc : CheckFunc) (r : loc) (h : list Rule)
  : option (option loc * list Rule) :=
  x ← h !! r;
  let name :=
    if decide (validator x ≠ "") then "rule_" +:+ validator x
    else "rule_" +:+ Join (fields x) "_" in
  fv ← checkValidatorFunc name checkFunc;
  h' ← write r (assign_checkFuncMeta (Some (newFuncMeta name false fv))) h;
  Some (Some r, h').

Definition SetFilterFunc (fn : option (any → any * option error)) (r : loc)
    (h : list Rule) : option (option loc * list Rule) :=
  h' ← write r (assign_filterFunc fn) h; Some (Some r, h').

Definition SetBeforeFunc (fn : option (string → Validation → bool))
    (r : loc) (h : list Rule) : option (option loc * list Rule) :=
  h' ← write r (assign_beforeFunc fn) h; Some (None, h').

Definition SetMessage (errMsg : string) (r : loc) (h : list Rule)
  : option (option loc * list Rule) :=
  h' ← write r (assign_message errMsg) h; Some (Some r, h').

Definition SetMessages (msgMap : MS) (r : loc) (h : list Rule)
  : option (option loc * list Rule) :=
  h' ← write r (assign_messages msgMap) h; Some (Some r, h').

Definition Fields (r : Rule) : list string := fields r.

Definition errorMessage (r : Rule) (field validator : string)
    (v : Validation) : string :=
  let builtin := Message (trans v) validator field (arguments r) in
  let rest := if decide (message r ≠ "") then message r else builtin in
  match messages r with
  | Some msgs =>
      let fKey := field +:+ "." +:+ validator in
      match msgs !! fKey with
      | Some msg => msg
      | None =>
          match msgs !! field with
          | Some msg => msg
          | None => rest
          end
      end
  | None => rest
  end.

(** The resolution order in the spec's words: the entry under
    ["<field>.<validator>"], else the entry under ["<field>"], else the
    rule's single message if set, else the translator's message. *)
Definition messageEntry (r : Rule) (key : string) : option string :=
  messages r ≫= (.!! key).

Definition errorMessage_spec (r : Rule) (field validator : string)
    (v : Validation) : string :=
  match messageEntry r (field +:+ "." +:+ validator) with
  | Some msg => msg
  | None =>
      match messageEntry r field with
      | Some msg => msg
      | None =>
          if decide (message r = "")
          then Message (trans v) validator field (arguments r)
          else message r
      end
  end.

(** [assigns a val res h r out]: the call ended without a panic, returned
    [res], and in the store only the rule at [r] changed, and of that rule
    only the attribute [a], which now holds [val]. *)
Definition assigns (a : attr) (val : attr_type a) (res : option loc)
    (h : list Rule) (r : loc) (out : option (option loc * list Rule)) : Prop :=
  ∃ x y, h !! r = Some x ∧ out = Some (res, <[r := y]> h)
         ∧ get a y = val ∧ ∀ b, b ≠ a → get b y = get b x.

(** The name [SetCheckFunc] registers the check function under. *)
Definition checkFuncName (x : Rule) : string :=
  if decide (validator x ≠ "") then "rule_" +:+ validator x
  else "rule_" +:+ Join (fields x) "_".

(** ** The engine: adding rules *)

(** The engine and the rules its pointers lead to. *)
Record State := mkState {
  heap : list Rule;
  engine : Validation;
}.

Definition assign_rules (x : list loc) (v : Validation) : Validation :=
  mkValidation x (SkipOnEmpty v) (trans v) (defValues v) (filterRules v).
Definition assign_defValues (x : gmap string any) (v : Validation)
  : Validation :=
  mkValidation (rules v) (SkipOnEmpty v) (trans v) x (filterRules v).
Definition assign_filterRules (x : FilterRules) (v : Validation)
  : Validation :=
  mkValidation (rules v) (SkipOnEmpty v) (trans v) (defValues v) x.

(** Modelled from the spec: [SetDefValue] is defined elsewhere; the spec has
    it record a default value for the field, to inject into the data source
    before any rule runs. *)
Definition SetDefValue (field : string) (val : any) (σ : State) : State :=
  mkState (heap σ)
    (assign_defValues (<[field := val]> (defValues (engine σ))) (engine σ)).

Definition AddRule (fields validator : string) (args : list any) (σ : State)
  : option (loc * State) :=
  let '(rule, h) := alloc (NewRule fields validator args) (heap σ) in
  h ← write rule (assign_skipEmpty (SkipOnEmpty (engine σ))) h;
  Some (rule,
        mkState h (assign_rules (rules (engine σ) ++ [rule]) (engine σ))).

Definition AppendRule (rule : loc) (σ : State) : option (loc * State) :=
  h ← write rule (assign_skipEmpty (SkipOnEmpty (engine σ))) (heap σ);
  Some (rule,
        mkState h (assign_rules (rules (engine σ) ++ [rule]) (engine σ))).

(** The body of the loop of [StringRule], for one piece of the rule.
    [list[1]] is read first and panics on a list of fewer than two
    pieces. *)
Definition stringRuleToken (field validator : string) (σ : State)
  : option State :=
  let validator := Trim validator ":" in
  if decide (validator = "") then Some σ
  else if ContainsRune validator ":"%char then
    let list := stringSplit validator ":" in
    list1 ← list !! 1%nat;
    let args := parseArgString list1 in
    list0 ← list !! 0%nat;
    let name := ValidatorName list0 in
    if decide (name = "default") then
      Some (SetDefValue field (AString list1) σ)
    else if decide (name = "regexp") then
      snd <$> AddRule field list0 [AString list1] σ
    else if decide (name = "enum" ∨ name = "notIn") then
      snd <$> AddRule field list0 [AStrings args] σ
    else
      snd <$> AddRule field list0 (strings2Args args) σ
  else
    snd <$> AddRule field validator [] σ.

(** A loop that stops at the first panic. *)
Fixpoint forEach {A S : Type} (body : A → S → option S) (l : list A) (s : S)
  : option S :=
  match l with
  | [] => Some s
  | a :: l' => s' ← body a s; forEach body l' s'
  end.

Definition StringRule (field rule : string) (filterRule : list string)
    (σ : State) : option State :=
  let rule := TrimSpace rule in
  let rules := stringSplit (Trim rule "|:") "|" in
  σ ← forEach (stringRuleToken field) rules σ;
  match filterRule with
  | f :: _ =>
      fr ← FilterRule field f (filterRules (engine σ));
      Some (mkState (heap σ) (assign_filterRules fr (engine σ)))
  | [] => Some σ
  end.

(** [range] over a Go map visits the entries in an order the language
    leaves open: any list of the entries of the map is an order of one run.
    The nil map has no entries. *)
Definition entries (mp : MS) : list (string * string) :=
  match mp with
  | Some m => map_to_list m
  | None => []
  end.

Definition rangeOrder (mp : MS) (order : list (string * string)) : Prop :=
  order ≡ₚ entries mp.

(** [StringRules] along one order of the map. *)
Definition StringRulesIn (order : list (string * string)) (σ : State)
  : option State :=
  forEach (λ '(name, rule) σ, StringRule name rule [] σ) order σ.

Definition ConfigRulesIn (order : list (string * string)) (σ : State)
  : option State :=
  forEach (λ '(name, rule) σ, StringRule name rule [] σ) order σ.

(** [StringRules mp σ r]: a run of [StringRules] on the map [mp] from [σ]
    may end in [r]. *)
Definition StringRules (mp : MS) (σ : State) (r : option State) : Prop :=
  ∃ order, rangeOrder mp order ∧ StringRulesIn order σ = r.

Definition ConfigRules (mp : MS) (σ : State) (r : option State) : Prop :=
  ∃ order, rangeOrder mp order ∧ ConfigRulesIn order σ = r.

(** The rules of the engine in order, read through its pointers. *)
Definition ruleSeq (σ : State) : option (list Rule) :=
  mapM (λ l : loc, heap σ !! l) (rules (engine σ)).

(** What one piece of a rule appends: the rule [AddRule] builds under the
    engine's policy [skip], nothing for a default value or an empty piece,
    [None] where [stringRuleToken] panics. *)
Definition addedRule (skip : bool) (fields validator : string)
    (args : list any) : Rule :=
  assign_skipEmpty skip (NewRule fields validator args).

Definition tokenRules (skip : bool) (field token : string)
  : option (list Rule) :=
  let validator := Trim token ":" in
  if decide (validator = "") then Some []
  else if ContainsRune validator ":"%char then
    let list := stringSplit validator ":" in
    list1 ← list !! 1%nat;
    list0 ← list !! 0%nat;
    let name := ValidatorName list0 in
    if decide (name = "default") then Some []
    else if decide (name = "regexp") then
      Some [addedRule skip field list0 [AString list1]]
    else if decide (name = "enum" ∨ name = "notIn") then
      Some [addedRule skip field list0 [AStrings (parseArgString list1)]]
    else
      Some [addedRule skip field list0 (strings2Args (parseArgString list1))]
  else Some [addedRule skip field validator []].

(** The rules of one field, in the order of the pieces of its rule text. *)
Definition fieldRules (skip : bool) (entry : string * string)
  : option (list Rule) :=
  let rule := TrimSpace entry.2 in
  blocks ← mapM (tokenRules skip entry.1) (stringSplit (Trim rule "|:") "|");
  Some (concat blocks).

End RuleModel.

(** ** Data sources *)

(** Go's reflection, as far as [FromStruct] looks: the kind and the type of
    a value, and the value a pointer leads to. *)
Module reflect.

Inductive Kind :=
  | Invalid | Bool | Int | Int8 | Int16 | Int32 | Int64
  | Uint | Uint8 | Uint16 | Uint32 | Uint64 | Uintptr
  | Float32 | Float64 | Complex64 | Complex128
  | Array | Chan | Func | Interface | Map | Ptr | Slice | String | Struct
  | UnsafePointer.

#[global] Instance Kind_eq_dec : EqDecision Kind.
Proof. solve_decision. Defined.

(** A type: one with a kind and a package-qualified name, or the pointer
    type to a type. *)
Inductive Type_ :=
  | Defined (k : Kind) (name : string)
  | PtrTo (elem : Type_).

#[global] Instance Type_eq_dec : EqDecision Type_.
Proof. solve_decision. Defined.

Definition kindOf (t : Type_) : Kind :=
  match t with
  | Defined k _ => k
  | PtrTo _ => Ptr
  end.

End reflect.

(** The standard library behind the constructors, and the parts of the data
    types that the constructors only pass on. *)
Class Platform := {
  (** what a Go value holds besides its type and its pointee *)
  Content : Type;
  (** a non-nil [map[string]interface{}] *)
  Object : Type;
  (** [json.Unmarshal] into an empty [map[string]interface{}]: an error, or
      the map, which is nil after the JSON text [null] *)
  json_Unmarshal : list Byte.byte → error + option Object;
  (** [*url.URL] and its [Query] *)
  URL : Type;
  Query : URL → gmap string (list string);
  (** a request body and [ioutil.ReadAll] *)
  ReadCloser : Type;
  ReadAll : ReadCloser → error + list Byte.byte;
  (** [map[string][]*multipart.FileHeader] *)
  FileHeaders : Type;
  noFiles : FileHeaders;
  defaultMaxMemory : Z;
}.

(** [url.Values]. *)
Abbreviation Values := (gmap string (list string)).

Section DataSources.
Context `{Platform}.

(** A Go value other than the nil interface: its dynamic type, the value it
    points to when it is a non-nil pointer, and its content. *)
#[warnings="-register-all"] Inductive GoValue :=
  | Val (t : reflect.Type_) (pointee : option GoValue) (c : Content).

Definition Type_of (v : GoValue) : reflect.Type_ :=
  match v with Val t _ _ => t end.

Definition Kind_of (v : GoValue) : reflect.Kind := reflect.kindOf (Type_of v).

Definition IsNil (v : GoValue) : bool :=
  match v with
  | Val _ None _ => true
  | Val _ (Some _) _ => false
  end.

(** [Elem] of a pointer that is not nil.  Go gives the zero Value for a nil
    pointer, which [FromStruct] never asks for. *)
Definition Elem (v : GoValue) : GoValue :=
  match v with
  | Val _ (Some e) _ => e
  | Val _ None _ => v
  end.

(** [timeType], the reflected type of [time.Time]. *)
Definition timeType : reflect.Type_ := reflect.Defined reflect.Struct "time.Time".


Record GlobalOption := mkGlobalOption {
  ValidateTag : string;
}.

Record MapData := mkMapData {
  Map : option Object;
  MapData_value : option (option Object);
  bodyJSON : list Byte.byte;
}.

Record StructData := mkStructData {
  StructData_ValidateTag : string;
  fieldNames : gmap string Z;
  fieldValues : gmap string (option GoValue);
  src : option GoValue;
  StructData_value : option GoValue;
  valueTpy : option reflect.Type_;
}.

(** Modelled from the spec: [FormData] and its [newFormData] and [Add] are
    defined elsewhere; the spec has it wrap string-keyed, multi-valued
    string data, with the uploaded files apart. *)
Record FormData := mkFormData {
  Form : Values;
  Files : FileHeaders;
}.

Definition newFormData : FormData := mkFormData ∅ noFiles.

Definition Add (key value : string) (d : FormData) : FormData :=
  mkFormData (<[key := default [] (Form d !! key) ++ [value]]> (Form d))
    (Files d).

(** [DataFace]: a form, or a [*MapData], which may be a nil pointer inside a
    non-nil interface. *)
Inductive DataFace :=
  | OfForm (d : FormData)
  | OfMap (d : option MapData).

Definition FromMap (m : option Object) : MapData :=
  match m with
  | Some _ => mkMapData m (Some m) []
  | None => mkMapData None None []
  end.

Definition FromJSONBytes (bs : list Byte.byte) : option MapData * option error :=
  match json_Unmarshal bs with
  | inl err => (None, Some err)
  | inr mp => (Some (mkMapData mp (Some mp) bs), None)
  end.

Definition FromJSON (s : string) : option MapData * option error :=
  FromJSONBytes (String.list_byte_of_string s).

Definition FromStruct (globalOpt : GlobalOption) (s : option GoValue)
  : StructData * option error :=
  let data := mkStructData (ValidateTag globalOpt) ∅ ∅ None None None in
  match s with
  | None => (data, Some ErrInvalidData)
  | Some s' =>
      let val := s' in
      let val :=
        if bool_decide (Kind_of val = reflect.Ptr) && negb (IsNil val)
        then Elem val else val in
      let typ := Type_of val in
      if bool_decide (Kind_of val ≠ reflect.Struct) || bool_decide (typ = timeType)
      then (data, Some ErrInvalidData)
      else (mkStructData (ValidateTag globalOpt) ∅ ∅ s (Some val) (Some typ),
            None)
  end.

(** The two loops of [FromURLValues], along one order of the map. *)
Definition addValues (key : string) (vals : list string) (d : FormData)
  : FormData :=
  foldl (λ d val, Add key val d) d vals.

Definition FromURLValuesIn (order : list (string * list string)) : FormData :=
  foldl (λ d '(key, vals), addValues key vals d) newFormData order.

(** The keys of a map are distinct and [Add] touches its key only, so every
    order gives the same form ([FromURLValues_any_order]); the function
    takes the order of [map_to_list]. *)
Definition FromURLValues (values : Values) : FormData :=
  FromURLValuesIn (map_to_list values).

Definition FromQuery (values : Values) : FormData := FromURLValues values.

(** The value [FromStruct] inspects: what a pointer that is not nil leads
    to, and the argument itself otherwise. *)
Definition indirect (v : GoValue) : GoValue :=
  if bool_decide (Kind_of v = reflect.Ptr) && negb (IsNil v)
  then Elem v else v.

(** The arguments [FromStruct] turns down: nil, what is not a structure
    once a pointer is followed, and [time.Time]. *)
Definition notAStruct (s : option GoValue) : Prop :=
  match s with
  | None => True
  | Some v =>
      Kind_of (indirect v) ≠ reflect.Struct ∨ Type_of (indirect v) = timeType
  end.

Record Request := mkRequest {
  Method : string;
  Request_URL : URL;
  Header : gmap string (list string);
  Body : ReadCloser;
}.

(** [Header.Get] for a key in canonical form, as ["Content-Type"] is. *)
Definition Header_Get (h : gmap string (list string)) (key : string) : string :=
  match h !! key with
  | Some (x :: _) => x
  | _ => ""
  end.

(** The form parsers of [net/http] and the two methods of [FormData] that
    [FromRequest] only hands its data to. *)
Class FormParsers := {
  (** [r.ParseMultipartForm(maxMemory)]: an error, or [r.MultipartForm]
      with its [Value] and [File] *)
  ParseMultipartForm : Request → Z → error + Values * FileHeaders;
  (** [r.ParseForm()]: an error, or [r.PostForm] *)
  ParseForm : Request → error + Values;
  AddFiles : FileHeaders → FormData → FormData;
  AddValues : Values → FormData → FormData;
}.

Context `{FormParsers}.

Definition FromRequest (r : Request) (maxMemoryLimit : list Z)
  : option DataFace * option error :=
  if bool_decide (Method r ≠ "POST") && bool_decide (Method r ≠ "PUT")
     && bool_decide (Method r ≠ "PATCH")
  then (Some (OfForm (FromURLValues (Query (Request_URL r)))), None)
  else
    let cType := Header_Get (Header r) "Content-Type" in
    if Contains cType "multipart/form-data" then
      let maxMemory :=
        match maxMemoryLimit with
        | m :: _ => m
        | [] => defaultMaxMemory
        end in
      match ParseMultipartForm r maxMemory with
      | inl err => (None, Some err)
      | inr (value, file) =>
          let data := FromURLValues value in
          let data := AddFiles file data in
          let data := AddValues (Query (Request_URL r)) data in
          (Some (OfForm data), None)
      end
    else if Contains cType "form-urlencoded" then
      match ParseForm r with
      | inl err => (None, Some err)
      | inr postForm =>
          let data := FromURLValues postForm in
          let data := AddValues (Query (Request_URL r)) data in
          (Some (OfForm data), None)
      end
    else if Contains cType "application/json" then
      match ReadAll (Body r) with
      | inl err => (None, Some err)
      | inr bs =>
          let '(d, err) := FromJSONBytes bs in (Some (OfMap d), err)
      end
    else (None, Some ErrEmptyData).

End DataSources.

(** ** Instances to run the definitions on *)

(** A signature of a callable: the number of parameters and the kinds of
    the results. *)
Record FuncSig := mkFuncSig {
  numIn : nat;
  outs : list reflect.Kind;
}.

(** Collaborators for the examples: no translation table, the aliases
    ["in"] and ["regex"], strings passed on as they are, a check function
    accepted when it takes a parameter and returns a boolean, alone or with
    an error. *)
Definition sampleCollaborators : Collaborators := {|
  Translator := unit;
  Message := λ _ validator field _, field +:+ " did not pass " +:+ validator;
  ValidatorName := λ name,
    if decide (name = "in") then "enum"
    else if decide (name = "regex") then "regexp" else name;
  strings2Args := fmap AString;
  CheckFunc := option FuncSig;
  FuncValue := FuncSig;
  funcMeta := string * bool * FuncSig;
  checkValidatorFunc := λ _ fn,
    sig ← fn;
    if bool_decide (numIn sig ≠ 0%nat)
       && (bool_decide (outs sig = [reflect.Bool])
           || bool_decide (outs sig = [reflect.Bool; reflect.Interface]))
    then Some sig else None;
  newFuncMeta := λ name isInternal fv, (name, isInternal, fv);
  FilterRules := list (string * string);
  FilterRule := λ field rule l, Some (l ++ [(field, rule)]);
|}.

(** An engine with no rule, under the policy [skip]. *)
Definition emptyEngine (skip : bool) : @State sampleCollaborators :=
  @mkState sampleCollaborators []
    (@mkValidation sampleCollaborators [] skip tt ∅ []).

(** A platform for the examples: values without content; a decoder that
    knows the empty object and [null]; a URL that is its query; a body that
    is its bytes; no files. *)
Definition samplePlatform : Platform := {|
  Content := unit;
  Object := gmap string any;
  json_Unmarshal := λ bs,
    let text := String.string_of_list_byte bs in
    if decide (text = "{}") then inr (Some ∅)
    else if decide (text = "null") then inr None
    else inl (ErrOther "invalid character");
  URL := gmap string (list string);
  Query := λ u, u;
  ReadCloser := list Byte.byte;
  ReadAll := inr;
  FileHeaders := unit;
  noFiles := tt;
  defaultMaxMemory := 33554432%Z;
|}.

Definition sampleParsers : @FormParsers samplePlatform := {|
  ParseMultipartForm := λ _ _, inl (ErrOther "no multipart body");
  ParseForm := λ _, inr ∅;
  AddFiles := λ _ d, d;
  AddValues := λ values d,
    foldl (λ d '(key, vals), addValues key vals d) d (map_to_list values);
|}.

Section SampleData.
#[local] Existing Instance sampleCollaborators.
#[local] Existing Instance samplePlatform.

(** A store with the rule of [v.AddRule("name,email", "required")] before
    its [skipEmpty] is set. *)
Definition oneRule : list Rule := [NewRule "name,email" "required" []].

Definition engineOn (h : list Rule) (ptrs : list loc) (skip : bool) : State :=
  mkState h (mkValidation ptrs skip tt ∅ []).

(** The map of two fields. *)
Definition twoFields : MS :=
  Some (<["name" := "required|minLen:7"]> (<["age" := "int"]> ∅)).




(** A POST request without Content-Type. *)
Definition aPost : Request :=
  mkRequest "POST" ∅ ∅ (String.list_byte_of_string "{}").

(** A PUT request with a JSON array as its body. *)
Definition aPut : Request :=
  mkRequest "PUT" {["debug" := ["1"]]}
    {["Content-Type" := ["application/json; charset=utf-8"]]}
    (String.list_byte_of_string "[]").

End SampleData.

(** ** The string functions on the rule texts of the repository *)

Example stringSplit_rule :
  stringSplit (Trim (TrimSpace " required|string|minLen:6 ") "|:") "|"
  = ["required"; "string"; "minLen:6"].
Proof. reflexivity. Qed.

Example stringSplit_fields : stringSplit "name, email,,age" "," = ["name"; "email"; "age"].
Proof. reflexivity. Qed.

Example stringSplit_blank : stringSplit "  " "," = [].
Proof. reflexivity. Qed.

Example Split_keeps_empty_pieces : Split "a||b|" "|" = ["a"; ""; "b"; ""].
Proof. reflexivity. Qed.

(** U+00A0 at the front and U+2003 at the back are white space; the byte
    0xA0 alone is not. *)
Example TrimSpace_unicode :
  TrimSpace (String (ascii_of_nat 194) (String (ascii_of_nat 160)
      ("ab" +:+ String (ascii_of_nat 226) (String (ascii_of_nat 128)
                 (String (ascii_of_nat 131) "")))))
  = "ab"
  ∧ TrimSpace (String (ascii_of_nat 160) "ab") = String (ascii_of_nat 160) "ab".
Proof. split; reflexivity. Qed.

Example Trim_colons : Trim "::min:1::" ":" = "min:1".
Proof. reflexivity. Qed.

(** ** Theorems: the rule model *)

Section RuleTheorems.
Context `{Collaborators}.

Lemma write_Some (h : list Rule) (r : loc) (f : Rule → Rule) (x : Rule) :
  h !! r = Some x → write r f h = Some (<[r := f x]> h).
Proof. intros Hr. unfold write. by rewrite Hr. Qed.

Lemma write_None (h : list Rule) (r : loc) (f : Rule → Rule) :
  h !! r = None → write r f h = None.
Proof. intros Hr. unfold write. by rewrite Hr. Qed.

(** C1. [errorMessage] resolves the message in the order of the spec: the
    entry of the rule's message map under ["<field>.<validator>"], else
    the entry under ["<field>"], else the rule's single message when it is
    not empty, else the translator's message for the validator, the field
    and the rule's arguments. *)
Theorem errorMessage_precedence (r : Rule) (field vname : string)
    (v : Validation) :
  errorMessage r field vname v = errorMessage_spec r field vname v.
Proof.
  unfold errorMessage, errorMessage_spec, messageEntry.
  destruct (messages r) as [msgs|]; simpl.
  - destruct (msgs !! (field +:+ "." +:+ vname)); [done|].
    destruct (msgs !! field); [done|].
    repeat case_decide; congruence.
  - repeat case_decide; congruence.
Qed.

Ltac solve_assigns x y :=
  exists x, y; repeat split; try done;
  let b := fresh "b" in
  intros b ?; destruct b; done.

Lemma SetOptional_assigns (h : list Rule) (r : loc) (x : Rule) (b : bool) :
  h !! r = Some x → assigns a_optional b None h r (SetOptional b r h).
Proof.
  intros Hr. unfold SetOptional. rewrite (write_Some _ _ _ _ Hr). simpl.
  solve_assigns x (assign_optional b x).
Qed.

Lemma SetSkipEmpty_assigns (h : list Rule) (r : loc) (x : Rule) (b : bool) :
  h !! r = Some x → assigns a_skipEmpty b None h r (SetSkipEmpty b r h).
Proof.
  intros Hr. unfold SetSkipEmpty. rewrite (write_Some _ _ _ _ Hr). simpl.
  solve_assigns x (assign_skipEmpty b x).
Qed.

Lemma SetBeforeFunc_assigns (h : list Rule) (r : loc) (x : Rule) fn :
  h !! r = Some x → assigns a_beforeFunc fn None h r (SetBeforeFunc fn r h).
Proof.
  intros Hr. unfold SetBeforeFunc. rewrite (write_Some _ _ _ _ Hr). simpl.
  solve_assigns x (assign_beforeFunc fn x).
Qed.

Lemma SetMessage_assigns (h : list Rule) (r : loc) (x : Rule) (m : string) :
  h !! r = Some x → assigns a_message m (Some r) h r (SetMessage m r h).
Proof.
  intros Hr. unfold SetMessage. rewrite (write_Some _ _ _ _ Hr). simpl.
  solve_assigns x (assign_message m x).
Qed.

Lemma SetMessages_assigns (h : list Rule) (r : loc) (x : Rule) (m : MS) :
  h !! r = Some x → assigns a_messages m (Some r) h r (SetMessages m r h).
Proof.
  intros Hr. unfold SetMessages. rewrite (write_Some _ _ _ _ Hr). simpl.
  solve_assigns x (assign_messages m x).
Qed.

Lemma SetFilterFunc_assigns (h : list Rule) (r : loc) (x : Rule) fn :
  h !! r = Some x → assigns a_filterFunc fn (Some r) h r (SetFilterFunc fn r h).
Proof.
  intros Hr. unfold SetFilterFunc. rewrite (write_Some _ _ _ _ Hr). simpl.
  solve_assigns x (assign_filterFunc fn x).
Qed.

Lemma SetCheckFunc_accepted (h : list Rule) (r : loc) (x : Rule) fn fv :
  h !! r = Some x →
  checkValidatorFunc (checkFuncName x) fn = Some fv →
  assigns a_checkFuncMeta (Some (newFuncMeta (checkFuncName x) false fv))
    (Some r) h r (SetCheckFunc fn r h).
Proof.
  intros Hr Hfv. unfold SetCheckFunc. rewrite Hr. simpl.
  fold (checkFuncName x). rewrite Hfv. simpl.
  rewrite (write_Some _ _ _ _ Hr). simpl.
  solve_assigns x
    (assign_checkFuncMeta (Some (newFuncMeta (checkFuncName x) false fv)) x).
Qed.

Lemma SetCheckFunc_rejected (h : list Rule) (r : loc) (x : Rule) fn :
  h !! r = Some x →
  checkValidatorFunc (checkFuncName x) fn = None →
  SetCheckFunc fn r h = None.
Proof.
  intros Hr Hfv. unfold SetCheckFunc. rewrite Hr. simpl.
  fold (checkFuncName x). by rewrite Hfv.
Qed.

(** C6, as the code has it.  On a rule [r] of the store each of the seven
    setters changes its own attribute of [r] in place and nothing else.
    [SetMessage], [SetMessages], [SetFilterFunc] and [SetCheckFunc] return
    [r]; [SetOptional], [SetSkipEmpty] and [SetBeforeFunc] return nothing.
    Six of them store every value as it is given; [SetCheckFunc] passes
    the function through [checkValidatorFunc] first and panics when that
    rejects it. *)
Theorem setters_assign_in_place (h : list Rule) (r : loc) (x : Rule)
    (Hr : h !! r = Some x) :
  (∀ b, assigns a_optional b None h r (SetOptional b r h))
  ∧ (∀ b, assigns a_skipEmpty b None h r (SetSkipEmpty b r h))
  ∧ (∀ fn, assigns a_beforeFunc fn None h r (SetBeforeFunc fn r h))
  ∧ (∀ m, assigns a_message m (Some r) h r (SetMessage m r h))
  ∧ (∀ m, assigns a_messages m (Some r) h r (SetMessages m r h))
  ∧ (∀ fn, assigns a_filterFunc fn (Some r) h r (SetFilterFunc fn r h))
  ∧ (∀ fn,
       match checkValidatorFunc (checkFuncName x) fn with
       | Some fv =>
           assigns a_checkFuncMeta
             (Some (newFuncMeta (checkFuncName x) false fv)) (Some r) h r
             (SetCheckFunc fn r h)
       | None => SetCheckFunc fn r h = None
       end).
Proof.
  repeat split; intros.
  - by eapply SetOptional_assigns.
  - by eapply SetSkipEmpty_assigns.
  - by eapply SetBeforeFunc_assigns.
  - by eapply SetMessage_assigns.
  - by eapply SetMessages_assigns.
  - by eapply SetFilterFunc_assigns.
  - destruct (checkValidatorFunc (checkFuncName x) fn) eqn:Hfv.
    + by eapply SetCheckFunc_accepted.
    + by eapply SetCheckFunc_rejected.
Qed.

(** *** Adding rules *)

Lemma AddRule_Some (σ : State) (fs vname : string) (args : list any) :
  AddRule fs vname args σ =
  Some (length (heap σ),
        mkState
          (heap σ ++ [addedRule (SkipOnEmpty (engine σ)) fs vname args])
          (assign_rules (rules (engine σ) ++ [length (heap σ)]) (engine σ))).
Proof.
  unfold AddRule, alloc.
  rewrite (write_Some _ _ _ (NewRule fs vname args)).
  - simpl. do 3 f_equal.
    rewrite insert_app_r_alt by lia. by rewrite Nat.sub_diag.
  - by rewrite lookup_app_r, Nat.sub_diag.
Qed.

Lemma AppendRule_Some (σ : State) (rule : loc) (x : Rule) :
  heap σ !! rule = Some x →
  AppendRule rule σ =
  Some (rule,
        mkState
          (<[rule := assign_skipEmpty (SkipOnEmpty (engine σ)) x]> (heap σ))
          (assign_rules (rules (engine σ) ++ [rule]) (engine σ))).
Proof. intros Hr. unfold AppendRule. by rewrite (write_Some _ _ _ _ Hr). Qed.


(** *** The pieces of a string rule *)

Lemma hasArgs_nonempty (s : string) :
  ContainsRune s ":"%char = true → s ≠ "".
Proof. by intros Hc ->. Qed.


Lemma tokenRules_args (skip : bool) (field token name arg : string)
    (rest : list string) :
  ContainsRune (Trim token ":") ":"%char = true →
  stringSplit (Trim token ":") ":" = name :: arg :: rest →
  tokenRules skip field token =
    if decide (ValidatorName name = "default") then Some []
    else if decide (ValidatorName name = "regexp") then
      Some [addedRule skip field name [AString arg]]
    else if decide (ValidatorName name = "enum" ∨ ValidatorName name = "notIn")
    then Some [addedRule skip field name [AStrings (parseArgString arg)]]
    else Some [addedRule skip field name (strings2Args (parseArgString arg))].
Proof.
  intros Hc Hs. unfold tokenRules.
  rewrite decide_False by by apply hasArgs_nonempty.
  by rewrite Hc, Hs.
Qed.



(** The same piece under the name ["regexp"]: the argument of the rule is
    the second piece of [stringSplit], not cut at its commas. *)
Lemma regexp_token_argument (σ : State) (field token name arg : string)
    (rest : list string) :
  ContainsRune (Trim token ":") ":"%char = true →
  stringSplit (Trim token ":") ":" = name :: arg :: rest →
  ValidatorName name = "regexp" →
  tokenRules (SkipOnEmpty (engine σ)) field token
  = Some [addedRule (SkipOnEmpty (engine σ)) field name [AString arg]].
Proof.
  intros Hargs Hsplit Hname.
  rewrite (tokenRules_args _ _ _ _ _ _ Hargs Hsplit).
  rewrite decide_False by (rewrite Hname; discriminate).
  by rewrite decide_True.
Qed.

(** *** A whole string rule *)

Lemma ruleSeq_AddRule (σ : State) (old : list Rule) (fs vname : string)
    (args : list any) :
  ruleSeq σ = Some old →
  ∃ σ', snd <$> AddRule fs vname args σ = Some σ'
        ∧ ruleSeq σ'
          = Some (old ++ [addedRule (SkipOnEmpty (engine σ)) fs vname args])
        ∧ SkipOnEmpty (engine σ') = SkipOnEmpty (engine σ).
Proof.
  intros Hold. rewrite AddRule_Some. simpl.
  eexists. split; [done|]. split; [|done].
  unfold ruleSeq. simpl. apply mapM_Some, Forall2_app.
  - apply mapM_Some in Hold. eapply Forall2_impl; [exact Hold|].
    intros l y Hl. by apply lookup_app_l_Some.
  - repeat constructor. by rewrite lookup_app_r, Nat.sub_diag.
Qed.

(** A piece runs as [tokenRules] says from any engine whose pointers lead
    to rules. *)
Lemma stringRuleToken_run (σ : State) (old : list Rule)
    (field token : string) :
  ruleSeq σ = Some old →
  match tokenRules (SkipOnEmpty (engine σ)) field token with
  | Some new =>
      ∃ σ', stringRuleToken field token σ = Some σ'
            ∧ ruleSeq σ' = Some (old ++ new)
            ∧ SkipOnEmpty (engine σ') = SkipOnEmpty (engine σ)
  | None => stringRuleToken field token σ = None
  end.
Proof.
  intros Hold. unfold tokenRules, stringRuleToken.
  destruct (decide (Trim token ":" = "")).
  { exists σ. by rewrite app_nil_r. }
  destruct (ContainsRune (Trim token ":") ":"%char);
    [|by apply ruleSeq_AddRule].
  destruct (stringSplit (Trim token ":") ":" !! 1%nat) as [list1|]; [|done].
  destruct (stringSplit (Trim token ":") ":" !! 0%nat) as [list0|]; [|done].
  simpl. repeat case_decide; try by apply ruleSeq_AddRule.
  eexists. split; [done|]. by rewrite app_nil_r.
Qed.

Lemma forEach_tokens_run (field : string) (tokens : list string) :
  ∀ (σ : State) (old : list Rule),
  ruleSeq σ = Some old →
  match mapM (tokenRules (SkipOnEmpty (engine σ)) field) tokens with
  | Some blocks =>
      ∃ σ', forEach (stringRuleToken field) tokens σ = Some σ'
            ∧ ruleSeq σ' = Some (old ++ concat blocks)
            ∧ SkipOnEmpty (engine σ') = SkipOnEmpty (engine σ)
  | None => forEach (stringRuleToken field) tokens σ = None
  end.
Proof.
  induction tokens as [|token tokens IH]; intros σ old Hold; simpl.
  { exists σ. by rewrite app_nil_r. }
  pose proof (stringRuleToken_run σ old field token Hold) as Htok.
  destruct (tokenRules (SkipOnEmpty (engine σ)) field token) as [new|];
    simpl; [|by rewrite Htok].
  destruct Htok as (σ1 & -> & Hseq1 & Hskip1). simpl.
  specialize (IH σ1 _ Hseq1). rewrite Hskip1 in IH.
  destruct (mapM (tokenRules (SkipOnEmpty (engine σ)) field) tokens)
    as [blocks|]; simpl; [|done].
  destruct IH as (σ' & -> & Hseq' & Hskip').
  exists σ'. split; [done|]. split; [|congruence].
  by rewrite Hseq', <- app_assoc.
Qed.

Lemma StringRule_run (σ : State) (old : list Rule) (field rule : string) :
  ruleSeq σ = Some old →
  match fieldRules (SkipOnEmpty (engine σ)) (field, rule) with
  | Some new =>
      ∃ σ', StringRule field rule [] σ = Some σ'
            ∧ ruleSeq σ' = Some (old ++ new)
            ∧ SkipOnEmpty (engine σ') = SkipOnEmpty (engine σ)
  | None => StringRule field rule [] σ = None
  end.
Proof.
  intros Hold. unfold fieldRules, StringRule. simpl.
  pose proof (forEach_tokens_run field
    (stringSplit (Trim (TrimSpace rule) "|:") "|") σ old Hold) as Hrun.
  destruct (mapM _ _) as [blocks|]; simpl; [|by rewrite Hrun].
  destruct Hrun as (σ' & -> & Hseq & Hskip). by exists σ'.
Qed.

Lemma StringRulesIn_run (order : list (string * string)) :
  ∀ (σ : State) (old : list Rule),
  ruleSeq σ = Some old →
  match mapM (fieldRules (SkipOnEmpty (engine σ))) order with
  | Some blocks =>
      ∃ σ', StringRulesIn order σ = Some σ'
            ∧ ruleSeq σ' = Some (old ++ concat blocks)
            ∧ SkipOnEmpty (engine σ') = SkipOnEmpty (engine σ)
  | None => StringRulesIn order σ = None
  end.
Proof.
  unfold StringRulesIn.
  induction order as [|[name rule] order IH]; intros σ old Hold; simpl.
  { exists σ. by rewrite app_nil_r. }
  pose proof (StringRule_run σ old name rule Hold) as Hone.
  destruct (fieldRules (SkipOnEmpty (engine σ)) (name, rule)) as [new|];
    simpl; [|by rewrite Hone].
  destruct Hone as (σ1 & -> & Hseq1 & Hskip1). simpl.
  specialize (IH σ1 _ Hseq1). rewrite Hskip1 in IH.
  destruct (mapM (fieldRules (SkipOnEmpty (engine σ))) order) as [blocks|];
    simpl; [|done].
  destruct IH as (σ' & -> & Hseq' & Hskip').
  exists σ'. split; [done|]. split; [|congruence].
  by rewrite Hseq', <- app_assoc.
Qed.

Lemma mapM_Permutation {A B : Type} (f : A → option B) (l1 l2 : list A) :
  l1 ≡ₚ l2 →
  match mapM f l1 with
  | Some k1 => ∃ k2, mapM f l2 = Some k2 ∧ k1 ≡ₚ k2
  | None => mapM f l2 = None
  end.
Proof.
  induction 1 as [|x l l' _ IH|x y l|l l' l'' _ IH1 _ IH2]; simpl.
  - by exists [].
  - destruct (f x); simpl; [|done].
    destruct (mapM f l); simpl.
    + destruct IH as (k2 & -> & Hk). simpl. eexists. split; [done|].
      by constructor.
    + by rewrite IH.
  - destruct (f x), (f y); simpl; try done.
    all: destruct (mapM f l); simpl; try done.
    eexists. split; [done|]. apply perm_swap.
  - destruct (mapM f l).
    + destruct IH1 as (k2 & Hk2 & Hp). rewrite Hk2 in IH2.
      destruct IH2 as (k3 & -> & Hp'). exists k3. split; [done|]. by etrans.
    + by rewrite IH1 in IH2.
Qed.

Lemma concat_Permutation {A : Type} (l1 l2 : list (list A)) :
  l1 ≡ₚ l2 → concat l1 ≡ₚ concat l2.
Proof.
  induction 1 as [|x l l' _ IH|x y l|l l' l'' _ IH1 _ IH2]; simpl.
  - done.
  - by f_equiv.
  - rewrite !app_assoc. f_equiv. apply Permutation_app_comm.
  - by etrans.
Qed.

Lemma ConfigRules_StringRules (mp : MS) (σ : State) (r : option State) :
  ConfigRules mp σ r ↔ StringRules mp σ r.
Proof. done. Qed.

(** C2, as the code has it.  A Go map keeps no insertion order, and a run
    of [StringRules] (or [ConfigRules]) takes the entries in some order of
    its own.  From an engine whose pointers lead to rules, a run in the
    order [order] appends the rules of each field as one block, the blocks
    in that order, or panics.  Two runs on the same map both panic or
    append the same rules up to their order. *)
Theorem StringRules_up_to_order (mp : MS) (σ : State) (old : list Rule)
    (Hold : ruleSeq σ = Some old) :
  (∀ order, rangeOrder mp order →
     match mapM (fieldRules (SkipOnEmpty (engine σ))) order with
     | Some blocks =>
         ∃ σ', StringRulesIn order σ = Some σ'
               ∧ ruleSeq σ' = Some (old ++ concat blocks)
     | None => StringRulesIn order σ = None
     end)
  ∧ (∀ r1 r2, StringRules mp σ r1 → StringRules mp σ r2 →
       (r1 = None ∧ r2 = None)
       ∨ ∃ σ1 σ2 new1 new2,
           r1 = Some σ1 ∧ r2 = Some σ2
           ∧ ruleSeq σ1 = Some (old ++ new1)
           ∧ ruleSeq σ2 = Some (old ++ new2)
           ∧ new1 ≡ₚ new2)
  ∧ (∀ r, ConfigRules mp σ r ↔ StringRules mp σ r).
Proof.
  split; [|split; [|intros; apply ConfigRules_StringRules]].
  - intros order _.
    pose proof (StringRulesIn_run order σ old Hold) as Hrun.
    destruct (mapM _ order) as [blocks|]; [|done].
    destruct Hrun as (σ' & ? & ? & _). by exists σ'.
  - intros r1 r2 (o1 & Ho1 & <-) (o2 & Ho2 & <-).
    assert (o1 ≡ₚ o2) as Hperm by (unfold rangeOrder in *; by etrans).
    pose proof (StringRulesIn_run o1 σ old Hold) as Hrun1.
    pose proof (StringRulesIn_run o2 σ old Hold) as Hrun2.
    pose proof (mapM_Permutation
      (fieldRules (SkipOnEmpty (engine σ))) o1 o2 Hperm) as Hmap.
    destruct (mapM _ o1) as [b1|].
    + destruct Hmap as (b2 & Hb2 & Hb). rewrite Hb2 in Hrun2.
      destruct Hrun1 as (σ1 & -> & Hs1 & _).
      destruct Hrun2 as (σ2 & -> & Hs2 & _).
      right. exists σ1, σ2, (concat b1), (concat b2).
      repeat split; try done. by apply concat_Permutation.
    + rewrite Hmap in Hrun2. by left.
Qed.

End RuleTheorems.

(** ** Theorems: the data sources *)

Section DataTheorems.
Context `{Platform} {parsers : FormParsers}.

(** *** The form of [FromURLValues] does not depend on the order *)

Lemma addValues_eq (key : string) (vals : list string) :
  ∀ d : FormData,
  addValues key vals d =
    match vals with
    | [] => d
    | _ :: _ =>
        mkFormData (<[key := default [] (Form d !! key) ++ vals]> (Form d))
          (Files d)
    end.
Proof.
  unfold addValues.
  induction vals as [|v vs IH]; intros d; simpl; [done|].
  rewrite IH. destruct vs as [|w ws]; [done|].
  unfold Add. simpl. rewrite lookup_insert_eq, insert_insert_eq. simpl.
  by rewrite <- app_assoc.
Qed.

Lemma addValues_Files (key : string) (vals : list string) (d : FormData) :
  Files (addValues key vals d) = Files d.
Proof. rewrite addValues_eq. by destruct vals. Qed.

Lemma addValues_other (key k : string) (vals : list string) (d : FormData) :
  k ≠ key → Form (addValues key vals d) !! k = Form d !! k.
Proof.
  intros Hk. rewrite addValues_eq. destruct vals; [done|].
  simpl. by rewrite lookup_insert_ne.
Qed.

(** The keys with a value, and the others. *)
Definition valued (entry : option (list string)) (otherwise : option (list string))
  : option (list string) :=
  match entry with
  | Some (v :: vs) => Some (v :: vs)
  | _ => otherwise
  end.

Lemma addValues_fold_lookup (order : list (string * list string)) :
  ∀ (d : FormData) (k : string),
  NoDup order.*1 →
  (∀ key, key ∈ order.*1 → Form d !! key = None) →
  Form (foldl (λ d '(key, vals), addValues key vals d) d order) !! k
  = valued ((list_to_map order : Values) !! k) (Form d !! k).
Proof.
  induction order as [|[key vals] order IH]; intros d k Hnd Hfree; simpl.
  { by rewrite lookup_empty. }
  apply NoDup_cons in Hnd as [Hkey Hnd].
  rewrite IH; [|done|].
  - destruct (decide (k = key)) as [->|Hk].
    + rewrite lookup_insert_eq.
      rewrite (not_elem_of_list_to_map_1 order key Hkey). simpl.
      rewrite addValues_eq. destruct vals as [|v vs]; [done|]. simpl.
      rewrite lookup_insert_eq. rewrite Hfree; [done|]. simpl. by left.
    + rewrite lookup_insert_ne by done. by rewrite addValues_other.
  - intros key' Hin. rewrite addValues_other.
    + apply Hfree. simpl. by right.
    + intros ->. done.
Qed.

Lemma addValues_fold_Files (order : list (string * list string)) :
  ∀ d : FormData,
  Files (foldl (λ d '(key, vals), addValues key vals d) d order) = Files d.
Proof.
  induction order as [|[key vals] order IH]; intros d; simpl; [done|].
  by rewrite IH, addValues_Files.
Qed.

(** X13. Every order of the entries of the map gives the form of
    [FromURLValues]: under each key with values the values of the map, in
    their order, and no other key. *)
Lemma FromURLValues_any_order (values : Values)
    (order : list (string * list string)) :
  order ≡ₚ map_to_list values →
  FromURLValuesIn order = FromURLValues values
  ∧ ∀ k, Form (FromURLValues values) !! k = valued (values !! k) None.
Proof.
  intros Hperm.
  assert (∀ o, o ≡ₚ map_to_list values →
    ∀ k, Form (FromURLValuesIn o) !! k = valued (values !! k) None) as Hform.
  { intros o Ho k. unfold FromURLValuesIn.
    assert (NoDup o.*1) as Hnd.
    { rewrite Ho. apply NoDup_fst_map_to_list. }
    rewrite addValues_fold_lookup; [|done|done].
    rewrite (list_to_map_proper o (map_to_list values) Hnd Ho).
    by rewrite list_to_map_to_list. }
  split; [|by apply Hform].
  unfold FromURLValues.
  pose proof (addValues_fold_Files order newFormData) as Hf1.
  pose proof (addValues_fold_Files (map_to_list values) newFormData) as Hf2.
  assert (Form (FromURLValuesIn order)
          = Form (FromURLValuesIn (map_to_list values))) as Hf.
  { apply map_eq. intros k. by rewrite !Hform. }
  unfold FromURLValuesIn in *.
  destruct (foldl _ newFormData order), (foldl _ newFormData (map_to_list values)).
  simpl in *. congruence.
Qed.

Lemma FromStruct_indirect (g : GlobalOption) (v : GoValue) :
  FromStruct g (Some v) =
    if bool_decide (Kind_of (indirect v) ≠ reflect.Struct)
       || bool_decide (Type_of (indirect v) = timeType)
    then (mkStructData (ValidateTag g) ∅ ∅ None None None, Some ErrInvalidData)
    else (mkStructData (ValidateTag g) ∅ ∅ (Some v) (Some (indirect v))
            (Some (Type_of (indirect v))), None).
Proof. done. Qed.

Lemma FromStruct_cases (g : GlobalOption) (v : GoValue) :
  (notAStruct (Some v)
   ∧ FromStruct g (Some v)
     = (mkStructData (ValidateTag g) ∅ ∅ None None None, Some ErrInvalidData))
  ∨ (¬ notAStruct (Some v)
     ∧ FromStruct g (Some v)
       = (mkStructData (ValidateTag g) ∅ ∅ (Some v) (Some (indirect v))
            (Some (Type_of (indirect v))), None)).
Proof.
  rewrite FromStruct_indirect. unfold notAStruct.
  destruct (decide (Kind_of (indirect v) ≠ reflect.Struct)) as [Hk|Hk].
  { rewrite (bool_decide_eq_true_2 _ Hk). left. by split; [left|]. }
  rewrite (bool_decide_eq_false_2 _ Hk).
  destruct (decide (Type_of (indirect v) = timeType)) as [Ht|Ht].
  { rewrite (bool_decide_eq_true_2 _ Ht). left. by split; [right|]. }
  rewrite (bool_decide_eq_false_2 _ Ht). right. split; [|done].
  by intros [?|?].
Qed.




(** C9. [FromStruct] returns the invalid-data error for a [time.Time]
    value and for a pointer to one. *)
Theorem FromStruct_rejects_time (g : GlobalOption) (c c' : Content)
    (p : option GoValue) :
  FromStruct g (Some (Val timeType p c))
  = (mkStructData (ValidateTag g) ∅ ∅ None None None, Some ErrInvalidData)
  ∧ FromStruct g
      (Some (Val (reflect.PtrTo timeType) (Some (Val timeType p c)) c'))
    = (mkStructData (ValidateTag g) ∅ ∅ None None None, Some ErrInvalidData).
Proof. done. Qed.


End DataTheorems.

(** ** The theorems at work, and where the code parts from the claims *)

Section Examples.
#[local] Existing Instance sampleCollaborators.
#[local] Existing Instance samplePlatform.
#[local] Existing Instance sampleParsers.

(** [SetMessage] on the rule of [oneRule]. *)
Lemma setters_assign_in_place_witness :
  oneRule !! 0%nat = Some (NewRule "name,email" "required" [])
  ∧ assigns a_message "error message" (Some 0%nat) oneRule 0%nat
      (SetMessage "error message" 0%nat oneRule).
Proof.
  split; [reflexivity|].
  destruct (setters_assign_in_place oneRule 0%nat
              (NewRule "name,email" "required" []) eq_refl)
    as (_ & _ & _ & Hmessage & _).
  apply Hmessage.
Defined.

(** C6 fails on the code: [SetOptional] has no result, so nothing can be
    chained to it, and [SetCheckFunc] panics on a function with no
    parameter instead of storing it. *)
Lemma setters_not_all_chainable :
  SetOptional true 0%nat oneRule
  = Some (None, [assign_optional true (NewRule "name,email" "required" [])])
  ∧ (¬ ∃ h', SetOptional true 0%nat oneRule = Some (Some 0%nat, h'))
  ∧ SetCheckFunc (Some (mkFuncSig 0 [reflect.Bool])) 0%nat oneRule = None.
Proof.
  split; [reflexivity|]. split; [|reflexivity].
  intros [h' Hh']. discriminate Hh'.
Qed.




(** C4 fails on the code: the piece [regexp:^[0-9]+:[0-9]+$] is cut at
    every [':'], and the rule gets the pattern up to the second [':'], not
    the whole remainder of the piece. *)
Theorem regexp_pattern_cut_at_colon :
  ValidatorName "regexp" = "regexp"
  ∧ ∃ σ' y,
      StringRule "time" "regexp:^[0-9]+:[0-9]+$" [] (emptyEngine false)
      = Some σ'
      ∧ ruleSeq σ' = Some [y]
      ∧ arguments y = [AString "^[0-9]+"]
      ∧ arguments y ≠ [AString "^[0-9]+:[0-9]+$"].
Proof.
  split; [reflexivity|]. eexists _, _. split; [reflexivity|].
  split; [reflexivity|]. split; [reflexivity|discriminate].
Qed.



Lemma StringRules_up_to_order_witness :
  ruleSeq (emptyEngine false) = Some []
  ∧ ∃ σ',
      StringRulesIn [("age", "int"); ("name", "required|minLen:7")]
        (emptyEngine false) = Some σ'
      ∧ ruleSeq σ'
        = Some [addedRule false "age" "int" [];
                addedRule false "name" "required" [];
                addedRule false "name" "minLen" [AString "7"]].
Proof.
  split; [reflexivity|].
  destruct (StringRules_up_to_order twoFields (emptyEngine false) []
              eq_refl) as [Hrun _].
  apply (Hrun [("age", "int"); ("name", "required|minLen:7")]).
  unfold rangeOrder. vm_compute. reflexivity.
Defined.

(** C2 fails on the code: the map is the same whichever field was put in
    first, and two runs of [StringRules] on it, one for each order of the
    [range], leave the rules in different orders. *)
Lemma StringRules_order_not_fixed :
  Some (<["age" := "int"]> (<["name" := "required|minLen:7"]> ∅)) = twoFields
  ∧ ∃ σ1 σ2,
      StringRules twoFields (emptyEngine false) (Some σ1)
      ∧ StringRules twoFields (emptyEngine false) (Some σ2)
      ∧ ruleSeq σ1
        = Some [addedRule false "age" "int" [];
                addedRule false "name" "required" [];
                addedRule false "name" "minLen" [AString "7"]]
      ∧ ruleSeq σ2
        = Some [addedRule false "name" "required" [];
                addedRule false "name" "minLen" [AString "7"];
                addedRule false "age" "int" []]
      ∧ ruleSeq σ1 ≠ ruleSeq σ2.
Proof.
  split; [reflexivity|]. eexists _, _.
  split.
  { exists [("age", "int"); ("name", "required|minLen:7")].
    split; [unfold rangeOrder; vm_compute; reflexivity|]. reflexivity. }
  split.
  { exists [("name", "required|minLen:7"); ("age", "int")].
    split; [unfold rangeOrder; vm_compute; apply perm_swap|]. reflexivity. }
  split; [reflexivity|]. split; [reflexivity|]. discriminate.
Qed.




End Examples.

(** ** More on the rule file: whole string rules *)

Local Close Scope N_scope.

Section StringRuleFacts.
Context `{Collaborators}.

(** The store and the pointers after a piece, exactly. *)
Lemma stringRuleToken_exact (σ : State) (field token : string) :
  match tokenRules (SkipOnEmpty (engine σ)) field token with
  | Some new =>
      ∃ σ', stringRuleToken field token σ = Some σ'
            ∧ heap σ' = heap σ ++ new
            ∧ rules (engine σ')
              = rules (engine σ) ++ seq (length (heap σ)) (length new)
            ∧ SkipOnEmpty (engine σ') = SkipOnEmpty (engine σ)
            ∧ trans (engine σ') = trans (engine σ)
            ∧ filterRules (engine σ') = filterRules (engine σ)
  | None => stringRuleToken field token σ = None
  end.
Proof.
  assert (∀ fs vn args,
    ∃ σ', snd <$> AddRule fs vn args σ = Some σ'
      ∧ heap σ' = heap σ ++ [addedRule (SkipOnEmpty (engine σ)) fs vn args]
      ∧ rules (engine σ') = rules (engine σ) ++ seq (length (heap σ)) 1
      ∧ SkipOnEmpty (engine σ') = SkipOnEmpty (engine σ)
      ∧ trans (engine σ') = trans (engine σ)
      ∧ filterRules (engine σ') = filterRules (engine σ)) as Hadd.
  { intros. rewrite AddRule_Some. simpl. by eexists. }
  unfold tokenRules, stringRuleToken.
  destruct (decide (Trim token ":" = "")).
  { exists σ. by rewrite !app_nil_r. }
  destruct (ContainsRune (Trim token ":") ":"%char); [|by apply Hadd].
  destruct (stringSplit (Trim token ":") ":" !! 1%nat) as [list1|]; [|done].
  destruct (stringSplit (Trim token ":") ":" !! 0%nat) as [list0|]; [|done].
  simpl. repeat case_decide; try by apply Hadd.
  eexists. split; [done|]. simpl. by rewrite !app_nil_r.
Qed.

Lemma forEach_tokens_exact (field : string) (tokens : list string) :
  ∀ σ : State,
  match mapM (tokenRules (SkipOnEmpty (engine σ)) field) tokens with
  | Some blocks =>
      ∃ σ', forEach (stringRuleToken field) tokens σ = Some σ'
            ∧ heap σ' = heap σ ++ concat blocks
            ∧ rules (engine σ')
              = rules (engine σ)
                ++ seq (length (heap σ)) (length (concat blocks))
            ∧ SkipOnEmpty (engine σ') = SkipOnEmpty (engine σ)
            ∧ trans (engine σ') = trans (engine σ)
            ∧ filterRules (engine σ') = filterRules (engine σ)
  | None => forEach (stringRuleToken field) tokens σ = None
  end.
Proof.
  induction tokens as [|token tokens IH]; intros σ; simpl.
  { exists σ. by rewrite !app_nil_r. }
  pose proof (stringRuleToken_exact σ field token) as Htok.
  destruct (tokenRules (SkipOnEmpty (engine σ)) field token) as [new|];
    simpl; [|by rewrite Htok].
  destruct Htok as (σ1 & -> & Hheap1 & Hrules1 & Hskip1 & Htrans1 & Hfr1).
  simpl. specialize (IH σ1). rewrite Hskip1 in IH.
  destruct (mapM (tokenRules (SkipOnEmpty (engine σ)) field) tokens)
    as [blocks|]; simpl; [|done].
  destruct IH as (σ' & -> & Hheap' & Hrules' & Hskip' & Htrans' & Hfr').
  exists σ'. split; [done|].
  rewrite Hheap', Hrules', Hheap1, Hrules1, !length_app.
  rewrite <- !app_assoc, seq_app.
  repeat split; congruence.
Qed.

Lemma StringRule_exact (σ : State) (field rule : string) :
  match fieldRules (SkipOnEmpty (engine σ)) (field, rule) with
  | Some new =>
      ∃ σ', StringRule field rule [] σ = Some σ'
            ∧ heap σ' = heap σ ++ new
            ∧ rules (engine σ')
              = rules (engine σ) ++ seq (length (heap σ)) (length new)
            ∧ SkipOnEmpty (engine σ') = SkipOnEmpty (engine σ)
            ∧ trans (engine σ') = trans (engine σ)
            ∧ filterRules (engine σ') = filterRules (engine σ)
  | None => StringRule field rule [] σ = None
  end.
Proof.
  unfold fieldRules, StringRule. simpl.
  pose proof (forEach_tokens_exact field
    (stringSplit (Trim (TrimSpace rule) "|:") "|") σ) as Hrun.
  destruct (mapM _ _) as [blocks|]; simpl; [|by rewrite Hrun].
  destruct Hrun as (σ' & -> & Hrest). by exists σ'.
Qed.

(** What a piece can append: nothing, or one rule as [AddRule] builds it
    for the field. *)
Lemma tokenRules_shape (skip : bool) (field token : string)
    (new : list Rule) :
  tokenRules skip field token = Some new →
  new = [] ∨ ∃ vn args, new = [addedRule skip field vn args].
Proof.
  unfold tokenRules.
  destruct (decide (Trim token ":" = "")); [naive_solver|].
  destruct (ContainsRune (Trim token ":") ":"%char); [|naive_solver].
  destruct (stringSplit (Trim token ":") ":" !! 1%nat) as [list1|]; [|done].
  destruct (stringSplit (Trim token ":") ":" !! 0%nat) as [list0|]; [|done].
  simpl. repeat case_decide; intros [= <-]; eauto.
Qed.

Lemma fieldBlocks_shape (skip : bool) (field : string) (tokens : list string) :
  ∀ blocks, mapM (tokenRules skip field) tokens = Some blocks →
  length (concat blocks) ≤ length tokens
  ∧ ∀ y, y ∈ concat blocks → ∃ vn args, y = addedRule skip field vn args.
Proof.
  induction tokens as [|token tokens IH]; intros blocks Hb; simpl in Hb.
  { injection Hb as <-. simpl. split; [done|]. by intros y ?%elem_of_nil. }
  destruct (tokenRules skip field token) as [new|] eqn:Hnew; [|done].
  destruct (mapM (tokenRules skip field) tokens) as [rest|]; [|done].
  simpl in Hb. injection Hb as <-. simpl.
  destruct (IH rest eq_refl) as [Hlen Hall].
  destruct (tokenRules_shape _ _ _ _ Hnew) as [->|(vn & args & ->)]; simpl.
  - split; [lia|done].
  - split; [lia|]. intros y [->|Hy]%elem_of_cons; eauto.
Qed.

(** X1. A call [StringRule(field, rule)] that returns, on an engine whose
    pointers lead to rules, keeps every rule there was and appends new
    ones behind them, at most one for each piece of the rule text.  Every
    appended rule is for the fields of [field], has the engine's
    [SkipOnEmpty] as its [skipEmpty], and carries no scene, no message, no
    message map and no hook. *)
Theorem StringRule_appends_plain_rules (σ σ' : State) (old : list Rule)
    (field rule : string)
    (Hold : ruleSeq σ = Some old)
    (Hrun : StringRule field rule [] σ = Some σ') :
  ∃ new,
    heap σ' = heap σ ++ new
    ∧ rules (engine σ')
      = rules (engine σ) ++ seq (length (heap σ)) (length new)
    ∧ ruleSeq σ' = Some (old ++ new)
    ∧ SkipOnEmpty (engine σ') = SkipOnEmpty (engine σ)
    ∧ length new ≤ length (stringSplit (Trim (TrimSpace rule) "|:") "|")
    ∧ ∀ y, y ∈ new →
        fields y = stringSplit field ","
        ∧ skipEmpty y = SkipOnEmpty (engine σ)
        ∧ scene y = "" ∧ optional y = false
        ∧ message y = "" ∧ messages y = None
        ∧ beforeFunc y = None ∧ filterFunc y = None
        ∧ checkFuncMeta y = None ∧ emptyChecker y = None.
Proof.
  pose proof (StringRule_exact σ field rule) as Hexact.
  pose proof (StringRule_run σ old field rule Hold) as Hseq.
  destruct (fieldRules (SkipOnEmpty (engine σ)) (field, rule)) as [new|]
    eqn:Hnew; [|congruence].
  destruct Hexact as (σ1 & Hrun1 & Hheap & Hrules & Hskip & _).
  destruct Hseq as (σ2 & Hrun2 & Hseq & _).
  assert (σ1 = σ') as -> by congruence.
  assert (σ2 = σ') as -> by congruence.
  exists new. do 4 (split; [done|]).
  unfold fieldRules in Hnew. simpl in Hnew.
  destruct (mapM _ _) as [blocks|] eqn:Hblocks; [|done].
  simpl in Hnew. injection Hnew as <-.
  destruct (fieldBlocks_shape _ _ _ _ Hblocks) as [Hlen Hall].
  split; [done|].
  intros y Hy. destruct (Hall y Hy) as (vn & args & ->). done.
Qed.

(** X2. A call [StringRule(field, rule)] panics exactly when one of the
    pieces of the rule text has a [':'] inside it, once the [':'] at its
    ends are gone, and yet falls into fewer than two pieces at [':'], so
    that [list[1]] is out of range.  The engine plays no part in it. *)
Theorem StringRule_panics_iff (σ : State) (field rule : string) :
  StringRule field rule [] σ = None
  ↔ ∃ token,
      token ∈ stringSplit (Trim (TrimSpace rule) "|:") "|"
      ∧ ContainsRune (Trim token ":") ":"%char = true
      ∧ (length (stringSplit (Trim token ":") ":") < 2)%nat.
Proof.
  assert (∀ skip token,
    tokenRules skip field token = None
    ↔ ContainsRune (Trim token ":") ":"%char = true
      ∧ (length (stringSplit (Trim token ":") ":") < 2)%nat) as Htoken.
  { intros skip token. unfold tokenRules.
    destruct (decide (Trim token ":" = "")) as [Heq|Hne].
    { rewrite Heq. split; [done|]. by intros [? _]. }
    destruct (ContainsRune (Trim token ":") ":"%char);
      [|split; [done|by intros [? _]]].
    destruct (stringSplit (Trim token ":") ":") as [|a [|b rest]]; simpl.
    - split; [intros _; split; [done|lia]|done].
    - split; [intros _; split; [done|lia]|done].
    - split; [repeat case_decide; done|]. intros [_ ?]. lia. }
  pose proof (StringRule_exact σ field rule) as Hexact.
  unfold fieldRules in Hexact. simpl in Hexact.
  destruct (mapM _ _) as [blocks|] eqn:Hblocks; simpl in Hexact.
  - destruct Hexact as (σ' & -> & _). split; [done|].
    intros (token & Hin & Hbad).
    apply mapM_Some_1 in Hblocks.
    apply list_elem_of_lookup in Hin as [i Hi].
    destruct (Forall2_lookup_l _ _ _ _ _ Hblocks Hi) as (b & _ & Hb).
    apply (Htoken (SkipOnEmpty (engine σ))) in Hbad. congruence.
  - split; [|done]. intros _.
    apply mapM_None_1, Exists_exists in Hblocks
      as (token & Hin & Hnone).
    exists token. split; [done|].
    by apply (Htoken (SkipOnEmpty (engine σ))).
Qed.

End StringRuleFacts.

(** ** More on the rule file: pieces, filters, maps of one field *)

Section PieceFacts.
Context `{Collaborators}.



(** X5. A piece with no [':'] inside it, once the [':'] at its ends are
    gone, is skipped when nothing is left of it, and otherwise appends one
    rule without arguments whose validator is what is left; no name is
    normalised and no default value is recorded. *)
Theorem bare_token_rule (σ : State) (field token : string)
    (Hbare : ContainsRune (Trim token ":") ":"%char = false) :
  (Trim token ":" = "" → stringRuleToken field token σ = Some σ)
  ∧ (Trim token ":" ≠ "" →
       ∃ σ' y,
         stringRuleToken field token σ = Some σ'
         ∧ heap σ' = heap σ ++ [y]
         ∧ rules (engine σ') = rules (engine σ) ++ [length (heap σ)]
         ∧ defValues (engine σ') = defValues (engine σ)
         ∧ validator y = Trim token ":"
         ∧ fields y = stringSplit field ","
         ∧ skipEmpty y = SkipOnEmpty (engine σ)
         ∧ arguments y = []).
Proof.
  unfold stringRuleToken. split; intros Hempty.
  - by rewrite decide_True.
  - rewrite decide_False by done. rewrite Hbare, AddRule_Some. simpl.
    eexists _, _. repeat split.
Qed.

Lemma forEach_one {A S : Type} (body : A → S → option S) (a : A) (s : S) :
  forEach body [a] s = body a s.
Proof. simpl. by destruct (body a s). Qed.

(** X6. On a map of one field a run of [StringRules] is the call of
    [StringRule] for that field, whatever the order of the [range]; on the
    nil map and on the empty map it leaves the engine as it is. *)
Theorem StringRules_one_field (σ : State) (name rule : string)
    (r : option State) :
  (StringRules (Some {[name := rule]}) σ r ↔ r = StringRule name rule [] σ)
  ∧ (StringRules None σ r ↔ r = Some σ)
  ∧ (StringRules (Some ∅) σ r ↔ r = Some σ).
Proof.
  unfold StringRules, rangeOrder, entries, StringRulesIn.
  rewrite map_to_list_singleton, map_to_list_empty.
  split; [|split].
  - split.
    + intros (order & ->%Permutation_singleton_r & <-).
      by rewrite forEach_one.
    + intros ->. exists [(name, rule)]. by rewrite forEach_one.
  - split.
    + by intros (order & ->%Permutation_nil_r & <-).
    + intros ->. by exists [].
  - split.
    + by intros (order & ->%Permutation_nil_r & <-).
    + intros ->. by exists [].
Qed.

End PieceFacts.

(** ** More on the rule file: pointers and setters *)

Section PointerFacts.
Context `{Collaborators}.

Lemma ruleSeq_is_Some (σ : State) :
  is_Some (ruleSeq σ)
  ↔ Forall (λ l : loc, l < length (heap σ)) (rules (engine σ)).
Proof.
  unfold ruleSeq. rewrite mapM_is_Some.
  apply Forall_proper; [|done]. intros l. simpl. apply lookup_lt_is_Some.
Qed.

Lemma write_length (r : loc) (f : Rule → Rule) (h h' : list Rule) :
  write r f h = Some h' → length h' = length h.
Proof.
  unfold write. destruct (h !! r); [|done].
  intros [= <-]. apply length_insert.
Qed.

Lemma same_length_ruleSeq (σ : State) (h' : list Rule) :
  length h' = length (heap σ) →
  is_Some (ruleSeq σ) → is_Some (ruleSeq (mkState h' (engine σ))).
Proof. rewrite !ruleSeq_is_Some. simpl. by intros ->. Qed.

Lemma StringRule_filter_frame (field rule : string) (filter : list string)
    (σ σ' : State) :
  StringRule field rule filter σ = Some σ' →
  ∃ σ1, StringRule field rule [] σ = Some σ1
        ∧ heap σ' = heap σ1
        ∧ rules (engine σ') = rules (engine σ1).
Proof.
  unfold StringRule.
  destruct (forEach (stringRuleToken field)
              (stringSplit (Trim (TrimSpace rule) "|:") "|") σ) as [σ1|];
    simpl; [|done].
  intros Hrun. exists σ1. split; [done|].
  destruct filter as [|f more]; [by injection Hrun as <-|].
  destruct (FilterRule field f (filterRules (engine σ1))) as [fr|];
    simpl in Hrun; [|done].
  by injection Hrun as <-.
Qed.

Lemma StringRule_pointers (field rule : string) (filter : list string)
    (σ σ' : State) :
  is_Some (ruleSeq σ) →
  StringRule field rule filter σ = Some σ' → is_Some (ruleSeq σ').
Proof.
  intros Hwf Hrun.
  destruct (StringRule_filter_frame _ _ _ _ _ Hrun)
    as (σ1 & Hrun1 & Hheap & Hrules).
  pose proof (StringRule_exact σ field rule) as Hexact.
  destruct (fieldRules (SkipOnEmpty (engine σ)) (field, rule)) as [new|];
    [|congruence].
  destruct Hexact as (σ2 & Hrun2 & Hheap2 & Hrules2 & _).
  assert (σ2 = σ1) as -> by congruence.
  apply ruleSeq_is_Some. rewrite Hheap, Hrules, Hheap2, Hrules2, length_app.
  apply ruleSeq_is_Some in Hwf. apply Forall_app. split.
  - eapply Forall_impl; [exact Hwf|]. simpl. intros l ?. lia.
  - apply Forall_seq. intros j ?. lia.
Qed.

(** X7. No dangling pointer: when every rule pointer of the engine leads
    to a rule, it still does after [AddRule], [AppendRule], [StringRule]
    with or without a filter rule, a run of [StringRules] in any order,
    [SetDefValue] and each of the eight setters of a rule. *)
Theorem rule_pointers_stay_valid (σ : State) (Hwf : is_Some (ruleSeq σ)) :
  (∀ fs vname args l σ',
     AddRule fs vname args σ = Some (l, σ') → is_Some (ruleSeq σ'))
  ∧ (∀ rule l σ', AppendRule rule σ = Some (l, σ') → is_Some (ruleSeq σ'))
  ∧ (∀ field rule filter σ',
       StringRule field rule filter σ = Some σ' → is_Some (ruleSeq σ'))
  ∧ (∀ order σ', StringRulesIn order σ = Some σ' → is_Some (ruleSeq σ'))
  ∧ (∀ field val, is_Some (ruleSeq (SetDefValue field val σ)))
  ∧ (∀ r res h',
       (∃ s, SetScene s r (heap σ) = Some (res, h'))
       ∨ (∃ b, SetOptional b r (heap σ) = Some (res, h'))
       ∨ (∃ b, SetSkipEmpty b r (heap σ) = Some (res, h'))
       ∨ (∃ fn, SetCheckFunc fn r (heap σ) = Some (res, h'))
       ∨ (∃ fn, SetFilterFunc fn r (heap σ) = Some (res, h'))
       ∨ (∃ fn, SetBeforeFunc fn r (heap σ) = Some (res, h'))
       ∨ (∃ m, SetMessage m r (heap σ) = Some (res, h'))
       ∨ (∃ m, SetMessages m r (heap σ) = Some (res, h')) →
       is_Some (ruleSeq (mkState h' (engine σ)))).
Proof.
  split; [|split; [|split; [|split; [|split]]]].
  - intros fs vname args l σ' Hadd. destruct Hwf as [old Hold].
    destruct (ruleSeq_AddRule σ old fs vname args Hold)
      as (σ1 & Hrun & Hseq & _).
    rewrite Hadd in Hrun. simpl in Hrun. injection Hrun as ->.
    by rewrite Hseq.
  - intros rule l σ' Happ. unfold AppendRule in Happ.
    destruct (write rule _ (heap σ)) as [h'|] eqn:Hw; [|done].
    simpl in Happ. injection Happ as <- <-.
    apply ruleSeq_is_Some. simpl.
    rewrite (write_length _ _ _ _ Hw).
    apply ruleSeq_is_Some in Hwf. apply Forall_app. split; [done|].
    apply Forall_singleton. unfold write in Hw.
    destruct (heap σ !! rule) eqn:Hl; [|done]. by eapply lookup_lt_Some.
  - intros field rule filter σ'. by apply StringRule_pointers.
  - intros order. revert σ Hwf. unfold StringRulesIn.
    induction order as [|[name rule] order IH]; intros σ Hwf σ' Hrun;
      simpl in Hrun.
    + by injection Hrun as <-.
    + destruct (StringRule name rule [] σ) as [σ1|] eqn:Hone; [|done].
      simpl in Hrun. eapply IH; [|done].
      by eapply StringRule_pointers.
  - intros field val. done.
  - intros r res h' Hset. apply same_length_ruleSeq; [|done].
    unfold SetScene, SetOptional, SetSkipEmpty, SetCheckFunc, SetFilterFunc,
      SetBeforeFunc, SetMessage, SetMessages in Hset.
    assert (∀ f (o : option loc),
      (h ← write r f (heap σ); Some (o, h)) = Some (res, h') →
      length h' = length (heap σ)) as Hw.
    { intros f o Hh. destruct (write r f (heap σ)) as [h1|] eqn:Hw1; [|done].
      simpl in Hh. injection Hh as _ <-. by eapply write_length. }
    destruct Hset as [[s Hs]|[[b Hs]|[[b Hs]|[[fn Hs]|[[fn Hs]|[[fn Hs]|
      [[m Hs]|[m Hs]]]]]]]]; try by eapply Hw.
    destruct (heap σ !! r); [|done]. simpl in Hs.
    destruct (checkValidatorFunc _ fn); [|done]. simpl in Hs.
    by eapply Hw.
Qed.

(** X8. [SetScene] changes the scene of the rule in place, nothing else,
    and returns the rule. *)
Theorem SetScene_assigns (h : list Rule) (r : loc) (x : Rule) (s : string)
    (Hr : h !! r = Some x) :
  assigns a_scene s (Some r) h r (SetScene s r h).
Proof.
  unfold SetScene. rewrite (write_Some _ _ _ _ Hr). simpl.
  exists x, (assign_scene s x). repeat split; try done.
  intros b ?. by destruct b.
Qed.

(** X9. [SetMessage] and [SetMessages] on a rule can be called in either
    order with the same result, and [errorMessage] on the rule then takes
    the entry of the new map under ["<field>.<validator>"], else the entry
    under ["<field>"], else the new message when it is not empty, else the
    translator's message. *)
Theorem message_setters_then_errorMessage (h : list Rule) (r : loc)
    (x : Rule) (m : string) (msgs : MS) (Hr : h !! r = Some x) :
  ∃ h2 y,
    ('(_, h1) ← SetMessage m r h; SetMessages msgs r h1) = Some (Some r, h2)
    ∧ ('(_, h1) ← SetMessages msgs r h; SetMessage m r h1)
      = Some (Some r, h2)
    ∧ h2 = <[r := y]> h
    ∧ (∀ a, a ≠ a_message → a ≠ a_messages → get a y = get a x)
    ∧ ∀ field vname v,
        errorMessage y field vname v =
          match msgs ≫= (.!! (field +:+ "." +:+ vname)) with
          | Some msg => msg
          | None =>
              match msgs ≫= (.!! field) with
              | Some msg => msg
              | None =>
                  if decide (m = "")
                  then Message (trans v) vname field (arguments x)
                  else m
              end
          end.
Proof.
  assert (r < length h) as Hlt by by eapply lookup_lt_Some.
  exists (<[r := assign_messages msgs (assign_message m x)]> h),
    (assign_messages msgs (assign_message m x)).
  unfold SetMessage, SetMessages.
  rewrite !(write_Some _ _ _ _ Hr). simpl.
  rewrite (write_Some _ _ _ (assign_message m x))
    by by apply list_lookup_insert_eq.
  rewrite (write_Some _ _ _ (assign_messages msgs x))
    by by apply list_lookup_insert_eq.
  simpl. rewrite !list_insert_insert_eq.
  split; [done|]. split; [done|]. split; [done|]. split.
  - intros a ? ?. by destruct a.
  - intros field vname v. unfold errorMessage. simpl.
    destruct msgs as [table|]; simpl.
    + destruct (table !! (field +:+ "." +:+ vname)); [done|].
      destruct (table !! field); [done|].
      repeat case_decide; congruence.
    + repeat case_decide; congruence.
Qed.

(** X10. The pointer [AddRule] returns is the one the engine holds: a
    [SetSkipEmpty] through it replaces the policy the rule took from the
    engine, shows in the rules of the engine, and leaves the rules that
    were there as they were. *)
Theorem AddRule_then_SetSkipEmpty (σ : State) (old : list Rule)
    (fs vname : string) (args : list any) (b : bool)
    (Hold : ruleSeq σ = Some old) :
  ∃ l σ' h2,
    AddRule fs vname args σ = Some (l, σ')
    ∧ SetSkipEmpty b l (heap σ') = Some (None, h2)
    ∧ ruleSeq (mkState h2 (engine σ'))
      = Some (old ++ [assign_skipEmpty b (NewRule fs vname args)]).
Proof.
  eexists _, _, _. split; [apply AddRule_Some|]. simpl.
  unfold SetSkipEmpty.
  rewrite (write_Some _ _ _
    (addedRule (SkipOnEmpty (engine σ)) fs vname args))
    by by rewrite lookup_app_r, Nat.sub_diag.
  simpl. split; [done|].
  rewrite insert_app_r_alt, Nat.sub_diag by lia. simpl.
  unfold ruleSeq. simpl. apply mapM_Some, Forall2_app.
  - apply mapM_Some in Hold. eapply Forall2_impl; [exact Hold|].
    intros l y Hl. by apply lookup_app_l_Some.
  - repeat constructor. by rewrite lookup_app_r, Nat.sub_diag.
Qed.

(** X17. [AppendRule] writes the policy of the engine over what
    [SetSkipEmpty] put into the rule before: a rule set up first and
    appended after ends with the engine's [SkipOnEmpty], and the engine is
    as if the setter had not been called. *)
Theorem AppendRule_forgets_SetSkipEmpty (σ : State) (r : loc) (x : Rule)
    (b : bool) (Hr : heap σ !! r = Some x) :
  ∃ h1 σ' y,
    SetSkipEmpty b r (heap σ) = Some (None, h1)
    ∧ AppendRule r (mkState h1 (engine σ)) = Some (r, σ')
    ∧ AppendRule r σ = Some (r, σ')
    ∧ heap σ' !! r = Some y
    ∧ skipEmpty y = SkipOnEmpty (engine σ).
Proof.
  assert (r < length (heap σ)) as Hlt by by eapply lookup_lt_Some.
  eexists _, _, _. unfold SetSkipEmpty.
  rewrite (write_Some _ _ _ _ Hr). simpl. split; [done|].
  rewrite (AppendRule_Some _ r (assign_skipEmpty b x))
    by by apply list_lookup_insert_eq.
  rewrite (AppendRule_Some _ r x Hr). simpl.
  rewrite list_insert_insert_eq.
  split; [reflexivity|]. split; [reflexivity|].
  split; [by apply list_lookup_insert_eq|reflexivity].
Qed.

End PointerFacts.

(** ** More on the data sources *)

Section DataFacts.
Context `{Platform} {parsers : FormParsers}.

(** X11. [FromStruct] follows one pointer and no more.  A nil pointer and
    a pointer to a pointer, whatever that leads to, get the invalid-data
    error; a structure other than [time.Time] and a pointer to it are both
    accepted, with the structure as the value and its type as the type,
    and the argument itself, pointer or not, kept as the source.  The
    invalid-data error is the only error, and it comes with a data source
    that holds nothing. *)
Theorem FromStruct_follows_one_pointer (g : GlobalOption)
    (elem : reflect.Type_) (name : string) (c c' : Content)
    (e : option GoValue) (Hname : name ≠ "time.Time") :
  (FromStruct g (Some (Val (reflect.PtrTo elem) None c))).2
  = Some ErrInvalidData
  ∧ (FromStruct g
       (Some (Val (reflect.PtrTo (reflect.PtrTo elem))
                (Some (Val (reflect.PtrTo elem) e c)) c'))).2
    = Some ErrInvalidData
  ∧ FromStruct g (Some (Val (reflect.Defined reflect.Struct name) None c))
    = (mkStructData (ValidateTag g) ∅ ∅
         (Some (Val (reflect.Defined reflect.Struct name) None c))
         (Some (Val (reflect.Defined reflect.Struct name) None c))
         (Some (reflect.Defined reflect.Struct name)), None)
  ∧ FromStruct g
      (Some (Val (reflect.PtrTo (reflect.Defined reflect.Struct name))
               (Some (Val (reflect.Defined reflect.Struct name) None c)) c'))
    = (mkStructData (ValidateTag g) ∅ ∅
         (Some (Val (reflect.PtrTo (reflect.Defined reflect.Struct name))
                  (Some (Val (reflect.Defined reflect.Struct name) None c))
                  c'))
         (Some (Val (reflect.Defined reflect.Struct name) None c))
         (Some (reflect.Defined reflect.Struct name)), None)
  ∧ ∀ s err,
      (FromStruct g s).2 = Some err →
      err = ErrInvalidData
      ∧ (FromStruct g s).1 = mkStructData (ValidateTag g) ∅ ∅ None None None.
Proof.
  assert (reflect.Defined reflect.Struct name ≠ timeType) as Htype.
  { unfold timeType. congruence. }
  split; [done|]. split; [by destruct e|].
  split; [|split].
  - unfold FromStruct. simpl.
    by rewrite (bool_decide_eq_false_2 _ Htype).
  - unfold FromStruct. simpl.
    by rewrite (bool_decide_eq_false_2 _ Htype).
  - intros [v|] err.
    + destruct (FromStruct_cases g v) as [[_ ->]|[_ ->]]; simpl; [|done].
      intros Herr. by injection Herr as <-.
    + simpl. intros Herr. by injection Herr as <-.
Qed.

(** X12. [FromJSONBytes] returns a data source or an error, never both and
    never neither.  The data source keeps the bytes it was decoded from and
    the decoded map, as the map and as the reflected value; it is the one
    [FromMap] builds for a decoded map that is not nil, with the bytes
    added.  The bytes kept by [FromJSON] are the text again. *)
Theorem FromJSONBytes_keeps_input (bs : list Byte.byte) :
  (∀ d, (FromJSONBytes bs).1 = Some d →
     (FromJSONBytes bs).2 = None
     ∧ bodyJSON d = bs
     ∧ MapData_value d = Some (Map d)
     ∧ json_Unmarshal bs = inr (Map d))
  ∧ ((FromJSONBytes bs).1 = None ↔ ∃ err, (FromJSONBytes bs).2 = Some err)
  ∧ (∀ o, json_Unmarshal bs = inr (Some o) →
       FromJSONBytes bs
       = (Some (mkMapData (Map (FromMap (Some o)))
                  (MapData_value (FromMap (Some o))) bs), None))
  ∧ ∀ text d,
      (FromJSON text).1 = Some d →
      String.string_of_list_byte (bodyJSON d) = text.
Proof.
  split; [|split; [|split]].
  - intros d. unfold FromJSONBytes.
    destruct (json_Unmarshal bs) as [err|mp]; simpl; [done|].
    by intros [= <-].
  - unfold FromJSONBytes.
    destruct (json_Unmarshal bs) as [err|mp]; simpl.
    + split; [by exists err|done].
    + split; [done|]. by intros [err ?].
  - intros o Ho. unfold FromJSONBytes. by rewrite Ho.
  - intros text d. unfold FromJSON, FromJSONBytes.
    destruct (json_Unmarshal _) as [err|mp]; simpl; [done|].
    intros [= <-]. simpl. apply String.string_of_list_byte_of_string.
Qed.

Lemma FromRequest_with_body (r : Request) (limit : list Z) :
  Method r = "POST" ∨ Method r = "PUT" ∨ Method r = "PATCH" →
  FromRequest r limit =
    let cType := Header_Get (Header r) "Content-Type" in
    if Contains cType "multipart/form-data" then
      match ParseMultipartForm r
              (match limit with m :: _ => m | [] => defaultMaxMemory end) with
      | inl err => (None, Some err)
      | inr (value, file) =>
          (Some (OfForm (AddValues (Query (Request_URL r))
                           (AddFiles file (FromURLValues value)))), None)
      end
    else if Contains cType "form-urlencoded" then
      match ParseForm r with
      | inl err => (None, Some err)
      | inr postForm =>
          (Some (OfForm (AddValues (Query (Request_URL r))
                           (FromURLValues postForm))), None)
      end
    else if Contains cType "application/json" then
      match ReadAll (Body r) with
      | inl err => (None, Some err)
      | inr bs =>
          let '(d, err) := FromJSONBytes bs in (Some (OfMap d), err)
      end
    else (None, Some ErrEmptyData).
Proof.
  intros Hm. unfold FromRequest.
  assert (bool_decide (Method r ≠ "POST") && bool_decide (Method r ≠ "PUT")
          && bool_decide (Method r ≠ "PATCH") = false) as ->.
  { destruct Hm as [-> | [-> | ->]]; done. }
  simpl. by repeat (destruct (Contains _ _)).
Qed.

(** X14. For a POST, PUT or PATCH request whose Content-Type names none of
    multipart/form-data, form-urlencoded and application/json,
    [FromRequest] returns no data source and the empty-data error,
    whatever the body and the URL hold; so it does when the header is not
    there at all. *)
Theorem FromRequest_unknown_content_type (r : Request) (limit : list Z)
    (Hm : Method r = "POST" ∨ Method r = "PUT" ∨ Method r = "PATCH")
    (Hct : Header r !! "Content-Type" = None
           ∨ (Contains (Header_Get (Header r) "Content-Type")
                "multipart/form-data" = false
              ∧ Contains (Header_Get (Header r) "Content-Type")
                  "form-urlencoded" = false
              ∧ Contains (Header_Get (Header r) "Content-Type")
                  "application/json" = false)) :
  FromRequest r limit = (None, Some ErrEmptyData)
  ∧ ∀ url body limit',
      FromRequest (mkRequest (Method r) url (Header r) body) limit'
      = (None, Some ErrEmptyData).
Proof.
  assert (∀ r', Method r' = Method r → Header r' = Header r →
            ∀ l, FromRequest r' l = (None, Some ErrEmptyData)) as Hgo.
  { intros r' Hm' Hh' l. rewrite FromRequest_with_body by by rewrite Hm'.
    rewrite Hh'. simpl. destruct Hct as [Hnone|(-> & -> & ->)]; [|done].
    unfold Header_Get. by rewrite Hnone. }
  split; [by apply Hgo|]. intros. by apply Hgo.
Qed.

(** X15. For a POST, PUT or PATCH request whose Content-Type names
    application/json and neither form encoding, [FromRequest] reads the
    body and decodes it, and takes nothing from the query of the URL.  A
    failed read gives no data source; a failed decoding gives the error of
    the decoder together with a data source that is not nil, the nil
    [*MapData] inside the interface. *)
Theorem FromRequest_json_body (r : Request) (limit : list Z)
    (Hm : Method r = "POST" ∨ Method r = "PUT" ∨ Method r = "PATCH")
    (Hmultipart : Contains (Header_Get (Header r) "Content-Type")
                    "multipart/form-data" = false)
    (Hform : Contains (Header_Get (Header r) "Content-Type")
               "form-urlencoded" = false)
    (Hjson : Contains (Header_Get (Header r) "Content-Type")
               "application/json" = true) :
  FromRequest r limit =
    match ReadAll (Body r) with
    | inl err => (None, Some err)
    | inr bs =>
        match json_Unmarshal bs with
        | inl err => (Some (OfMap None), Some err)
        | inr mp => (Some (OfMap (Some (mkMapData mp (Some mp) bs))), None)
        end
    end
  ∧ ∀ url limit',
      FromRequest (mkRequest (Method r) url (Header r) (Body r)) limit'
      = FromRequest r limit.
Proof.
  assert (∀ r', Method r' = Method r → Header r' = Header r →
            Body r' = Body r → ∀ l,
            FromRequest r' l =
              match ReadAll (Body r) with
              | inl err => (None, Some err)
              | inr bs =>
                  match json_Unmarshal bs with
                  | inl err => (Some (OfMap None), Some err)
                  | inr mp =>
                      (Some (OfMap (Some (mkMapData mp (Some mp) bs))), None)
                  end
              end) as Hgo.
  { intros r' Hm' Hh' Hb' l. rewrite FromRequest_with_body by by rewrite Hm'.
    rewrite Hh', Hb'. simpl. rewrite Hmultipart, Hform, Hjson.
    destruct (ReadAll (Body r)) as [err|bs]; [done|].
    unfold FromJSONBytes. by destruct (json_Unmarshal bs). }
  split; [by apply Hgo|]. intros. by rewrite !Hgo.
Qed.

(** X16. Of the memory limits handed to [FromRequest] only the first is
    used, and none at all unless the request has a body and its
    Content-Type names multipart/form-data. *)
Theorem FromRequest_memory_limit (r : Request) (l : Z) (ls limit : list Z) :
  FromRequest r (l :: ls) = FromRequest r [l]
  ∧ (Contains (Header_Get (Header r) "Content-Type") "multipart/form-data"
     = false →
     FromRequest r limit = FromRequest r [])
  ∧ (Method r ≠ "POST" → Method r ≠ "PUT" → Method r ≠ "PATCH" →
     FromRequest r limit = FromRequest r []).
Proof.
  split; [done|]. split.
  - intros Hct. unfold FromRequest. by rewrite Hct.
  - intros ? ? ?. unfold FromRequest. by rewrite !bool_decide_eq_true_2.
Qed.

End DataFacts.

(** ** The further theorems at work *)

Section MoreExamples.
#[local] Existing Instance sampleCollaborators.
#[local] Existing Instance samplePlatform.
#[local] Existing Instance sampleParsers.

(** The rule text of the doc comment of [StringRule]. *)
Lemma StringRule_appends_plain_rules_witness :
  ruleSeq (emptyEngine true) = Some []
  ∧ ∃ σ',
      StringRule "name" "required|string|minLen:6" [] (emptyEngine true)
      = Some σ'
      ∧ ∃ new,
          heap σ' = new
          ∧ rules (engine σ') = seq 0 (length new)
          ∧ length new ≤ 3
          ∧ ∀ y, y ∈ new → fields y = ["name"] ∧ skipEmpty y = true.
Proof.
  split; [reflexivity|]. eexists. split; [reflexivity|].
  destruct (StringRule_appends_plain_rules (emptyEngine true) _ []
              "name" "required|string|minLen:6" eq_refl eq_refl)
    as (new & Hheap & Hrules & _ & _ & Hlen & Hall).
  exists new. split; [exact Hheap|]. split; [exact Hrules|].
  split; [exact Hlen|].
  intros y Hy. destruct (Hall y Hy) as (Hf & Hs & _). by split.
Defined.


Lemma bare_token_rule_witness :
  ContainsRune (Trim "required:" ":") ":"%char = false
  ∧ Trim "required:" ":" ≠ ""
  ∧ ∃ σ' y,
      stringRuleToken "name" "required:" (emptyEngine false) = Some σ'
      ∧ heap σ' = [y]
      ∧ validator y = "required"
      ∧ arguments y = [].
Proof.
  assert (Trim "required:" ":" ≠ "") as Hne by discriminate.
  split; [reflexivity|]. split; [exact Hne|].
  destruct (bare_token_rule (emptyEngine false) "name" "required:" eq_refl)
    as [_ Hrule].
  destruct (Hrule Hne) as (σ' & y & Hrun & Hheap & _ & _ & Hv & _ & _ & Ha).
  exists σ', y. repeat split; assumption.
Defined.

Lemma rule_pointers_stay_valid_witness :
  is_Some (ruleSeq (engineOn oneRule [0] true))
  ∧ ∀ σ',
      StringRule "age" "required|int" ["int"] (engineOn oneRule [0] true)
      = Some σ' →
      is_Some (ruleSeq σ').
Proof.
  assert (is_Some (ruleSeq (engineOn oneRule [0] true))) as Hwf.
  { eexists. reflexivity. }
  split; [exact Hwf|].
  destruct (rule_pointers_stay_valid (engineOn oneRule [0] true) Hwf)
    as (_ & _ & Hrule & _).
  intros σ'. apply Hrule.
Defined.

Lemma SetScene_assigns_witness :
  oneRule !! 0 = Some (NewRule "name,email" "required" [])
  ∧ assigns a_scene "create" (Some 0) oneRule 0 (SetScene "create" 0 oneRule).
Proof.
  split; [reflexivity|].
  apply (SetScene_assigns oneRule 0 (NewRule "name,email" "required" [])
           "create" eq_refl).
Defined.

Lemma message_setters_then_errorMessage_witness :
  oneRule !! 0 = Some (NewRule "name,email" "required" [])
  ∧ ∃ h2 y,
      ('(_, h1) ← SetMessage "is required" 0 oneRule;
       SetMessages (Some {["email" := "no email"]}) 0 h1)
      = Some (Some 0, h2)
      ∧ h2 = [y]
      ∧ errorMessage y "email" "required"
          (engine (emptyEngine false)) = "no email"
      ∧ errorMessage y "name" "required"
          (engine (emptyEngine false)) = "is required".
Proof.
  split; [reflexivity|].
  destruct (message_setters_then_errorMessage oneRule 0
              (NewRule "name,email" "required" []) "is required"
              (Some {["email" := "no email"]}) eq_refl)
    as (h2 & y & Hrun & _ & Hh2 & _ & Hmsg).
  exists h2, y. split; [exact Hrun|]. split; [exact Hh2|].
  split; [apply (Hmsg "email" "required")|apply (Hmsg "name" "required")].
Defined.

Lemma AddRule_then_SetSkipEmpty_witness :
  ruleSeq (emptyEngine true) = Some []
  ∧ ∃ l σ' h2,
      AddRule "name" "required" [] (emptyEngine true) = Some (l, σ')
      ∧ SetSkipEmpty false l (heap σ') = Some (None, h2)
      ∧ ruleSeq (mkState h2 (engine σ'))
        = Some [assign_skipEmpty false (NewRule "name" "required" [])].
Proof.
  split; [reflexivity|].
  apply (AddRule_then_SetSkipEmpty (emptyEngine true) [] "name" "required"
           [] false eq_refl).
Defined.

Lemma AppendRule_forgets_SetSkipEmpty_witness :
  heap (engineOn oneRule [] true) !! 0
  = Some (NewRule "name,email" "required" [])
  ∧ ∃ h1 σ' y,
      SetSkipEmpty false 0 oneRule = Some (None, h1)
      ∧ AppendRule 0 (engineOn h1 [] true) = Some (0, σ')
      ∧ heap σ' !! 0 = Some y
      ∧ skipEmpty y = true.
Proof.
  split; [reflexivity|].
  destruct (AppendRule_forgets_SetSkipEmpty (engineOn oneRule [] true) 0
              (NewRule "name,email" "required" []) false eq_refl)
    as (h1 & σ' & y & Hset & Happ & _ & Hy & Hskip).
  exists h1, σ', y. repeat split; assumption.
Defined.

Lemma FromStruct_follows_one_pointer_witness :
  "validate.UserForm" ≠ "time.Time"
  ∧ (FromStruct (mkGlobalOption "validate")
       (Some (Val (reflect.PtrTo
                     (reflect.Defined reflect.Struct "validate.UserForm"))
                None tt))).2
    = Some ErrInvalidData.
Proof.
  assert ("validate.UserForm" ≠ "time.Time") as Hname by discriminate.
  split; [exact Hname|].
  apply (FromStruct_follows_one_pointer (H := samplePlatform)
           (mkGlobalOption "validate")
           (reflect.Defined reflect.Struct "validate.UserForm")
           "validate.UserForm" tt tt None Hname).
Defined.

Lemma FromURLValues_any_order_witness :
  [("name", ["inhere"]); ("age", ["10"; "11"])]
  ≡ₚ map_to_list (<["name" := ["inhere"]]> {["age" := ["10"; "11"]]})
  ∧ FromURLValuesIn [("name", ["inhere"]); ("age", ["10"; "11"])]
    = FromURLValues (<["name" := ["inhere"]]> {["age" := ["10"; "11"]]}).
Proof.
  assert ([("name", ["inhere"]); ("age", ["10"; "11"])]
          ≡ₚ map_to_list (<["name" := ["inhere"]]>
                            ({["age" := ["10"; "11"]]} : Values))) as Hperm.
  { vm_compute. apply perm_swap. }
  split; [exact Hperm|].
  apply (FromURLValues_any_order _ _ Hperm).
Defined.

Lemma FromRequest_unknown_content_type_witness :
  Header aPost !! "Content-Type" = None
  ∧ FromRequest aPost [] = (None, Some ErrEmptyData).
Proof.
  split; [reflexivity|].
  apply (FromRequest_unknown_content_type aPost []
           (or_introl eq_refl) (or_introl eq_refl)).
Defined.

Lemma FromRequest_json_body_witness :
  Contains (Header_Get (Header aPut) "Content-Type") "application/json" = true
  ∧ FromRequest aPut []
    = (Some (OfMap None), Some (ErrOther "invalid character")).
Proof.
  split; [reflexivity|].
  apply (FromRequest_json_body aPut []
           (or_intror (or_introl eq_refl)) eq_refl eq_refl eq_refl).
Defined.

End MoreExamples.
